(** * CPM scheduling engine of [project_calculations.py]

    A shallow embedding of [ScheduleCalculator] (activity list, forward and
    backward pass, Gantt projection) and of [ProductivityCalculator]
    (S-curve, earned-value metrics), with the properties of the
    specification stated over it; and of [BudgetCalculator] (composition
    costs, budget totals, profit margin), of the schedule report of
    [ReportGenerator] and of the views of [routes.py] that call the
    calculators, with properties read off the code.

    Conventions of the embedding:
    - a Python [int] is a [Z]; a Python [float] is an exact rational [Q]
      (binary rounding of the float operations is outside the model, the
      decimal rounding done by [round(x, n)] is inside it). What is stated
      of a float result is chosen so that it holds of binary floating
      point as well: an order, an exact case such as 0, or a tolerance
      wider than the rounding unit for amounts of bounded size ([moderate]);
    - the engine's [self.activities] is a list of records updated in place
      by index: [l !! i] reads, [<[i:=a]> l] writes;
    - a raising operation returns [inl e], a returning one [inr v];
    - a [date] is its proleptic Gregorian day number ([date.toordinal()]);
      the time of day of a [datetime] is left out: adding whole days keeps
      it and ['%Y-%m-%d'] does not print it. *)

From Stdlib Require Import ZArith QArith Qround Lia Lqa.
From stdpp Require Import base tactics list strings sorting relations.

Local Open Scope Z_scope.

(** The exceptions the modelled code can raise: those of the builtins, and
    the [ValueError] of [calculate_composition_cost]. *)
Inductive exn :=
  | ValueError (msg : string)
  | ZeroDivisionError (msg : string)
  | OverflowError (msg : string).

(** [max(...)] of a Python iterable of ints: raises [ValueError] on an
    empty one. *)
Definition py_max (l : list Z) : exn + Z :=
  match l with
  | [] => inl (ValueError "max() arg is an empty sequence")
  | x :: xs => inr (foldl Z.max x xs)
  end.

(** Raising computations: [x ← m; k] stops at the first [inl]. *)
Global Instance exn_ret : MRet (sum exn) := λ A x, inr x.
Global Instance exn_bind : MBind (sum exn) := λ A B f m,
  match m with inl e => inl e | inr x => f x end.

(** ** Calendar dates ([datetime.date]) *)

(** [date.max.toordinal()], the ordinal of 9999-12-31. *)
Definition MAXORDINAL : Z := 3652059.

(** [timedelta(days=n)]: the constructor accepts at most 999999999 days. *)
Definition timedelta_days (n : Z) : exn + Z :=
  if decide (-999999999 ≤ n ≤ 999999999) then inr n
  else inl (OverflowError "days out of range for timedelta").

(** [d + timedelta(days=n)] on the ordinal of [d]. *)
Definition date_add (d n : Z) : exn + Z :=
  delta ← timedelta_days n;
  if decide (0 < d + delta ≤ MAXORDINAL) then inr (d + delta)
  else inl (OverflowError "date value out of range").

Definition is_leap (y : Z) : bool :=
  (y mod 4 =? 0) && (negb (y mod 100 =? 0) || (y mod 400 =? 0)).

Definition days_in_month (leap : bool) (m : Z) : Z :=
  if m =? 2 then (if leap then 29 else 28)
  else if (m =? 4) || (m =? 6) || (m =? 9) || (m =? 11) then 30 else 31.

Definition days_before_month (leap : bool) (m : Z) : Z :=
  foldr Z.add 0 (days_in_month leap <$> seqZ 1 (m - 1)).

(** Ordinal to (year, month, day), as [datetime._ord2ymd] computes it from
    the 400-, 100-, 4- and 1-year cycles. *)
Definition ord2ymd (o : Z) : Z * Z * Z :=
  let n := o - 1 in
  let n400 := n / 146097 in let n := n mod 146097 in
  let n100 := n / 36524 in let n := n mod 36524 in
  let n4 := n / 1461 in let n := n mod 1461 in
  let n1 := n / 365 in let n := n mod 365 in
  let year := n400 * 400 + 1 + n100 * 100 + n4 * 4 + n1 in
  if (n1 =? 4) || (n100 =? 4) then (year - 1, 12, 31)
  else
    let leap := (n1 =? 3) && (negb (n4 =? 24) || (n100 =? 3)) in
    let month := Z.shiftr (n + 50) 5 in
    let preceding := days_before_month leap month in
    if n <? preceding
    then (year, month - 1, n - (preceding - days_in_month leap (month - 1)) + 1)
    else (year, month, n - preceding + 1).

Definition digit (d : Z) : Ascii.ascii := Ascii.ascii_of_N (48 + Z.to_N d).

(** [z] in decimal, on [width] digits with leading zeros. *)
Fixpoint zero_padded (width : nat) (z : Z) (acc : string) : string :=
  match width with
  | O => acc
  | S w => zero_padded w (z / 10) (String (digit (z mod 10)) acc)
  end.

(** [d.strftime('%Y-%m-%d')] on the ordinal of [d], the year on four
    digits. *)
Definition strftime_Ymd (o : Z) : string :=
  let '(y, m, d) := ord2ymd o in
  zero_padded 4 y ("-" +:+ zero_padded 2 m ("-" +:+ zero_padded 2 d "")).

(** ** The schedule calculator *)

Module ScheduleCalculator.

(** One entry of [self.activities]: the dict built by [add_activity]. *)
Record activity := Activity {
  id : Z;
  name : string;
  duration : Z;
  predecessors : list Z;
  early_start : Z;
  early_finish : Z;
  late_start : Z;
  late_finish : Z;
  slack : Z;
  is_critical : bool
}.

(** What the caller supplies, and what [calculate_cpm] computes. *)
Definition inputs (a : activity) : Z * string * Z * list Z :=
  (id a, name a, duration a, predecessors a).

Definition computed (a : activity) : Z * Z * Z * Z * Z * bool :=
  (early_start a, early_finish a, late_start a, late_finish a, slack a,
   is_critical a).

(** [add_activity]: append a record with zeroed computed fields. *)
Definition add_activity (activity_id : Z) (nm : string) (dur : Z)
    (preds : option (list Z)) (acts : list activity) : list activity :=
  acts ++ [ {| id := activity_id; name := nm; duration := dur;
               predecessors := default [] preds;
               early_start := 0; early_finish := 0;
               late_start := 0; late_finish := 0;
               slack := 0; is_critical := false |} ].

(** [next((a for a in self.activities if a['id'] == pred_id), None)] *)
Definition find_activity (acts : list activity) (pred_id : Z) : option activity :=
  snd <$> list_find (λ a, id a = pred_id) acts.

(** The inner loop of the forward pass, from [max_finish = 0]. *)
Definition max_finish (acts : list activity) (preds : list Z) : Z :=
  foldl (λ m pred_id,
           match find_activity acts pred_id with
           | Some pred => Z.max m (early_finish pred)
           | None => m
           end) 0 preds.

Definition forward_early_start (acts : list activity) (a : activity) : Z :=
  if decide (predecessors a = []) then 0 else max_finish acts (predecessors a).

Definition set_early (a : activity) (es : Z) : activity :=
  {| id := id a; name := name a; duration := duration a;
     predecessors := predecessors a;
     early_start := es; early_finish := es + duration a;
     late_start := late_start a; late_finish := late_finish a;
     slack := slack a; is_critical := is_critical a |}.

(** One iteration of the forward loop, on the activity at index [i]. *)
Definition forward_step (acts : list activity) (i : nat) : list activity :=
  match acts !! i with
  | Some a => <[i := set_early a (forward_early_start acts a)]> acts
  | None => acts
  end.

Definition forward_pass (acts : list activity) : list activity :=
  foldl forward_step acts (seq 0 (length acts)).

(** [[a for a in self.activities if activity['id'] in a['predecessors']]] *)
Definition successors (acts : list activity) (a : activity) : list activity :=
  filter (λ b, id a ∈ predecessors b) acts.

Definition backward_late_finish (project_duration : Z) (acts : list activity)
    (a : activity) : Z :=
  match successors acts a with
  | [] => project_duration
  | succ :: rest => foldl Z.min (late_start succ) (late_start <$> rest)
  end.

Definition set_late (a : activity) (lf : Z) : activity :=
  {| id := id a; name := name a; duration := duration a;
     predecessors := predecessors a;
     early_start := early_start a; early_finish := early_finish a;
     late_start := lf - duration a; late_finish := lf;
     slack := lf - duration a - early_start a;
     is_critical := bool_decide (lf - duration a - early_start a = 0) |}.

(** One iteration of the backward loop, on the activity at index [i]. *)
Definition backward_step (project_duration : Z) (acts : list activity)
    (i : nat) : list activity :=
  match acts !! i with
  | Some a => <[i := set_late a (backward_late_finish project_duration acts a)]> acts
  | None => acts
  end.

Definition backward_pass (project_duration : Z) (acts : list activity)
    : list activity :=
  foldl (backward_step project_duration) acts (reverse (seq 0 (length acts))).

(** The dict returned by [calculate_cpm]. ['activities'] is the engine's own
    list: the record holds its contents at the time of the return. *)
Record cpm_result := CpmResult {
  activities : list activity;
  project_duration : Z;
  critical_path : list Z;
  critical_activities : list activity
}.

(** [calculate_cpm]: the outcome and the engine's activity list afterwards. *)
Definition calculate_cpm (acts : list activity)
    : (exn + cpm_result) * list activity :=
  let acts1 := forward_pass acts in
  match py_max (early_finish <$> acts1) with
  | inl e => (inl e, acts1)
  | inr pd =>
      let acts2 := backward_pass pd acts1 in
      (inr {| activities := acts2;
              project_duration := pd;
              critical_path := id <$> filter (λ a, is_critical a = true) acts2;
              critical_activities := filter (λ a, is_critical a = true) acts2 |},
       acts2)
  end.

(** One dict of the list returned by [generate_gantt_data]. *)
Record gantt_record := GanttRecord {
  gantt_id : Z;
  gantt_name : string;
  start_date : string;
  end_date : string;
  gantt_duration : Z;
  gantt_is_critical : bool;
  gantt_slack : Z;
  gantt_predecessors : list Z
}.

(** The body of the loop of [generate_gantt_data] for one activity. *)
Definition gantt_entry (start : Z) (a : activity) : exn + gantt_record :=
  activity_start ← date_add start (early_start a);
  activity_end ← date_add start (early_finish a);
  mret {| gantt_id := id a;
          gantt_name := name a;
          start_date := strftime_Ymd activity_start;
          end_date := strftime_Ymd activity_end;
          gantt_duration := duration a;
          gantt_is_critical := is_critical a;
          gantt_slack := slack a;
          gantt_predecessors := predecessors a |}.

Fixpoint gantt_loop (start : Z) (todo : list activity)
    (gantt_data : list gantt_record) : exn + list gantt_record :=
  match todo with
  | [] => mret gantt_data
  | a :: rest =>
      entry ← gantt_entry start a;
      gantt_loop start rest (gantt_data ++ [entry])
  end.

(** [generate_gantt_data]: the outcome and the engine's activity list
    afterwards. *)
Definition generate_gantt_data (start : Z) (acts : list activity)
    : (exn + list gantt_record) * list activity :=
  (gantt_loop start acts [], acts).

(** *** Vocabulary of the specification *)

(** The activity list after the first [m] iterations of the forward loop. *)
Definition forward_upto (acts : list activity) (m : nat) : list activity :=
  foldl forward_step acts (seq 0 m).

(** The activity list once the backward loop has handled the positions
    from the last one down to [m]. *)
Definition backward_downto (pd : Z) (s : list activity) (m : nat) : list activity :=
  foldl (backward_step pd) s (reverse (seq m (length s - m))).

(** The relations every activity has to satisfy after [calculate_cpm]. *)
Definition consistent (a : activity) : Prop :=
  early_finish a = early_start a + duration a ∧
  late_start a = late_finish a - duration a ∧
  slack a = late_start a - early_start a ∧
  (is_critical a = true ↔ slack a = 0).

(** Two activities with the same supplied fields and the same early times. *)
Definition early_agree (a a' : activity) : Prop :=
  inputs a' = inputs a ∧ early_start a' = early_start a ∧
  early_finish a' = early_finish a.

(** [a] names [b] as a predecessor; a cycle of the predecessor relation. *)
Definition depends_on (acts : list activity) (a b : activity) : Prop :=
  a ∈ acts ∧ b ∈ acts ∧ id b ∈ predecessors a.

Definition has_cycle (acts : list activity) : Prop :=
  ∃ a, tc (depends_on acts) a a.

(** Every predecessor was added before each of its dependents. *)
Definition insertion_ordered (acts : list activity) : Prop :=
  ∀ i k a b, acts !! i = Some a → acts !! k = Some b →
    id b ∈ predecessors a → (k < i)%nat.

(** The same, as a check that computes. *)
Fixpoint insertion_ordered_check (acts : list activity) : bool :=
  match acts with
  | [] => true
  | a :: rest =>
      forallb (λ b, bool_decide (id b ∉ predecessors a)) (a :: rest)
      && insertion_ordered_check rest
  end.

(** [m] is the maximum of [l], or [d] when [l] is empty. *)
Definition is_max_or (d : Z) (l : list Z) (m : Z) : Prop :=
  match l with
  | [] => m = d
  | _ => m ∈ l ∧ Forall (λ x, x ≤ m) l
  end.

(** [m] is the minimum of [l], or [d] when [l] is empty. *)
Definition is_min_or (d : Z) (l : list Z) (m : Z) : Prop :=
  match l with
  | [] => m = d
  | _ => m ∈ l ∧ Forall (λ x, m ≤ x) l
  end.

(** The maximum of [l] as a function, [d] when [l] is empty. *)
Definition list_max_or (d : Z) (l : list Z) : Z :=
  match l with
  | [] => d
  | x :: xs => foldl Z.max x xs
  end.

(** The reference definition of the early times, by recursion along the
    predecessor relation: an activity starts when the last of the activities
    its predecessor list names has finished, at 0 when it names none. In a
    graph without cycles [length acts] levels of recursion reach every
    chain. *)
Fixpoint reference_early_start (fuel : nat) (acts : list activity)
    (a : activity) : Z :=
  match fuel with
  | O => 0
  | S fuel' =>
      list_max_or 0
        ((λ b, reference_early_start fuel' acts b + duration b)
           <$> filter (λ b, id b ∈ predecessors a) acts)
  end.

(** A predecessor id that matches no activity of the collection. *)
Definition dangling (acts : list activity) (p : Z) : Prop :=
  p ∉ (id <$> acts).

Definition has_dangling (acts : list activity) : Prop :=
  ∃ a p, a ∈ acts ∧ p ∈ predecessors a ∧ dangling acts p.

(** The collection with the ids outside [ids] removed from every
    predecessor list. *)
Definition restrict_predecessors (ids : list Z) (a : activity) : activity :=
  {| id := id a; name := name a; duration := duration a;
     predecessors := filter (λ p, p ∈ ids) (predecessors a);
     early_start := early_start a; early_finish := early_finish a;
     late_start := late_start a; late_finish := late_finish a;
     slack := slack a; is_critical := is_critical a |}.

Definition without_dangling (acts : list activity) : list activity :=
  restrict_predecessors (id <$> acts) <$> acts.

(** The Gantt record of activity [a] for the start date [start]. *)
Definition projects (start : Z) (a : activity) (g : gantt_record) : Prop :=
  start_date g = strftime_Ymd (start + early_start a) ∧
  end_date g = strftime_Ymd (start + early_finish a) ∧
  gantt_id g = id a ∧ gantt_name g = name a ∧
  gantt_duration g = duration a ∧ gantt_slack g = slack a ∧
  gantt_is_critical g = is_critical a ∧
  gantt_predecessors g = predecessors a.

(** Two Gantt records that differ by a shift of [delta] days of both dates
    and by nothing else. *)
Definition shifted (delta : Z) (g1 g2 : gantt_record) : Prop :=
  (∃ s e, start_date g1 = strftime_Ymd s ∧ end_date g1 = strftime_Ymd e ∧
          start_date g2 = strftime_Ymd (s + delta) ∧
          end_date g2 = strftime_Ymd (e + delta)) ∧
  gantt_id g1 = gantt_id g2 ∧ gantt_name g1 = gantt_name g2 ∧
  gantt_duration g1 = gantt_duration g2 ∧ gantt_slack g1 = gantt_slack g2 ∧
  gantt_is_critical g1 = gantt_is_critical g2 ∧
  gantt_predecessors g1 = gantt_predecessors g2.

(** Both dates of activity [a] lie in the range of [datetime.date]. *)
Definition on_calendar (start : Z) (a : activity) : Prop :=
  0 < start + early_start a ≤ MAXORDINAL ∧
  0 < start + early_finish a ≤ MAXORDINAL ∧
  0 < start ≤ MAXORDINAL.

(** A chain of dependent activities: each one names the one before it as a
    predecessor. *)
Fixpoint chained (chain : list activity) : Prop :=
  match chain with
  | a :: (b :: _) as rest => id a ∈ predecessors b ∧ chained rest
  | _ => True
  end.

(** The sum of the durations of a list of activities. *)
Definition total_duration (chain : list activity) : Z :=
  foldr Z.add 0 (duration <$> chain).

(** *** Sample schedules *)

(** A(3) → B(2) → C(4), added in dependency order. *)
Definition chain_example : list activity :=
  add_activity 3 "C" 4 (Some [2])
    (add_activity 2 "B" 2 (Some [1]) (add_activity 1 "A" 3 None [])).

(** A(3), B(5) and C(2) after A, D(1) after B and C. *)
Definition parallel_example : list activity :=
  add_activity 4 "D" 1 (Some [2; 3])
    (add_activity 3 "C" 2 (Some [1])
       (add_activity 2 "B" 5 (Some [1]) (add_activity 1 "A" 3 None []))).

(** A two-activity cycle and a self-reference. *)
Definition cyclic_example : list activity :=
  add_activity 3 "C" 1 (Some [3])
    (add_activity 2 "B" 2 (Some [1]) (add_activity 1 "A" 3 (Some [2]) [])).

(** A is added before its predecessor B. *)
Definition out_of_order_example : list activity :=
  add_activity 2 "B" 2 None (add_activity 1 "A" 3 (Some [2]) []).

(** B names the unknown activity 99 next to A. *)
Definition dangling_example : list activity :=
  add_activity 2 "B" 2 (Some [99; 1]) (add_activity 1 "A" 3 None []).

(** Two activities with the id 1, of 3 and of 7 days, and B after them. *)
Definition duplicate_id_example : list activity :=
  add_activity 2 "B" 1 (Some [1])
    (add_activity 1 "A2" 7 None (add_activity 1 "A" 3 None [])).

(** A with a duration of -5 days, and B after it. *)
Definition negative_duration_example : list activity :=
  add_activity 2 "B" 1 (Some [1]) (add_activity 1 "A" (-5) None []).

End ScheduleCalculator.

(** ** The productivity calculator *)

(** [round(x, ndigits)]: to the nearest multiple of [10^-ndigits], ties to
    the even one. *)
Definition round_half_even (x : Q) : Z :=
  let f := Qfloor x in
  match (x - inject_Z f ?= 1 # 2)%Q with
  | Lt => f
  | Gt => f + 1
  | Eq => if Z.even f then f else f + 1
  end.

Definition pow10 (n : nat) : Q := inject_Z (10 ^ Z.of_nat n).

Definition py_round (x : Q) (ndigits : nat) : Q :=
  (inject_Z (round_half_even (x * pow10 ndigits)) / pow10 ndigits)%Q.

(** [x > 0] on numbers. *)
Definition Qpositive (x : Q) : bool :=
  match (x ?= 0)%Q with Gt => true | _ => false end.


(** A [dict] with string keys in insertion order, as an association list
    without repeated keys. *)
Definition dict (V : Type) : Type := list (string * V).

Definition dict_empty {V} : dict V := [].

Fixpoint dict_get {V} (d : dict V) (k : string) : option V :=
  match d with
  | [] => None
  | (k', v) :: d' => if decide (k = k') then Some v else dict_get d' k
  end.

Fixpoint dict_set {V} (d : dict V) (k : string) (v : V) : dict V :=
  match d with
  | [] => [(k, v)]
  | (k', v') :: d' =>
      if decide (k = k') then (k', v) :: d' else (k', v') :: dict_set d' k v
  end.

Definition dict_keys {V} (d : dict V) : list string := fst <$> d.

(** [sorted(...)] on strings: a stable merge sort on the code point order. *)
Definition sorted (l : list string) : list string := merge_sort String.le l.

Module ProductivityCalculator.

(** An activity dict as [calculate_s_curve] reads it: each key may be
    missing, [.get] supplies the default. *)
Record activity := Activity {
  cost : option Q;
  duration : option Z;
  early_start : option Z
}.

(** One point of the returned series. *)
Record s_curve_point := SCurvePoint {
  date : string;
  daily_cost : Q;
  cumulative_cost : Q;
  percentage : Q
}.

(** [sum(a.get('cost', 0) for a in activities)] *)
Definition total_cost (activities : list activity) : Q :=
  foldl Qplus 0%Q (default 0%Q ∘ cost <$> activities).

(** [activity.get('cost', 0) / activity.get('duration', 1)] *)
Definition cost_per_day (a : activity) : exn + Q :=
  let d := default 1 (duration a) in
  if decide (d = 0) then inl (ZeroDivisionError "division by zero")
  else inr (default 0%Q (cost a) / inject_Z d)%Q.

(** The body of the inner loop: one day of one activity. *)
Definition add_day (per_day : Q) (activity_start : Z)
    (daily_costs : exn + dict Q) (day : Z) : exn + dict Q :=
  costs ← daily_costs;
  current_date ← date_add activity_start day;
  let date_str := strftime_Ymd current_date in
  let costs := match dict_get costs date_str with
               | None => dict_set costs date_str 0%Q
               | Some _ => costs
               end in
  mret (dict_set costs date_str
          (default 0%Q (dict_get costs date_str) + per_day)%Q).

(** The body of the outer loop: one activity. *)
Definition add_activity_cost (start : Z) (daily_costs : exn + dict Q)
    (a : activity) : exn + dict Q :=
  costs ← daily_costs;
  per_day ← cost_per_day a;
  activity_start ← date_add start (default 0 (early_start a));
  foldl (add_day per_day activity_start) (inr costs)
        (seqZ 0 (default 0 (duration a))).

(** The accumulation loop over the sorted dates. *)
Fixpoint accumulate (daily_costs : dict Q) (total : Q) (dates : list string)
    (cumulative : Q) (s_curve_data : list s_curve_point) : list s_curve_point :=
  match dates with
  | [] => s_curve_data
  | date_str :: rest =>
      let today := default 0%Q (dict_get daily_costs date_str) in
      let cumulative := (cumulative + today)%Q in
      let pct := if Qpositive total then (cumulative / total * 100)%Q else 0%Q in
      accumulate daily_costs total rest cumulative
        (s_curve_data ++ [ {| date := date_str;
                              daily_cost := py_round today 2;
                              cumulative_cost := py_round cumulative 2;
                              percentage := py_round pct 2 |} ])
  end.

Definition calculate_s_curve (activities : list activity) (start : Z)
    : exn + list s_curve_point :=
  let total := total_cost activities in
  daily_costs ← foldl (add_activity_cost start) (inr dict_empty) activities;
  mret (accumulate daily_costs total (sorted (dict_keys daily_costs)) 0%Q []).

(** The dict returned by [calculate_progress_metrics]. *)
Record progress_metrics := ProgressMetrics {
  cost_variance : Q;
  schedule_variance : Q;
  cost_performance_index : Q;
  schedule_performance_index : Q;
  budget_efficiency : Q;
  schedule_efficiency : Q
}.

Definition calculate_progress_metrics (planned_cost actual_cost earned_value : Q)
    : progress_metrics :=
  let cv := (earned_value - actual_cost)%Q in
  let sv := (earned_value - planned_cost)%Q in
  let cpi := if Qpositive actual_cost then (earned_value / actual_cost)%Q else 0%Q in
  let spi := if Qpositive planned_cost then (earned_value / planned_cost)%Q else 0%Q in
  {| cost_variance := py_round cv 2;
     schedule_variance := py_round sv 2;
     cost_performance_index := py_round cpi 3;
     schedule_performance_index := py_round spi 3;
     budget_efficiency := py_round (cpi * 100 - 100) 1;
     schedule_efficiency := py_round (spi * 100 - 100) 1 |}.

(** *** Vocabulary of the specification *)

(** The sum of the values of a dict. *)
Definition dict_sum (d : dict Q) : Q := foldr Qplus 0%Q (snd <$> d).

(** [daily_costs[date_str]] for a key of the dict. *)
Definition today (daily_costs : dict Q) (date_str : string) : Q :=
  default 0%Q (dict_get daily_costs date_str).


(** A positive cost and a duration of at least one day, both present. *)
Definition priced (a : activity) : Prop :=
  ∃ c d, cost a = Some c ∧ duration a = Some d ∧ (0 < c)%Q ∧ 1 ≤ d.

(** Every day of the activity lies in the range of [datetime.date]. *)
Definition within_calendar (start : Z) (a : activity) : Prop :=
  0 < start + default 0 (early_start a) ∧
  start + default 0 (early_start a) + default 0 (duration a) - 1 ≤ MAXORDINAL.


(** The days on which activity [a] runs, as date strings. *)
Definition runs_on (start : Z) (a : activity) (k : string) : Prop :=
  ∃ day, 0 ≤ day < default 0 (duration a) ∧
         k = strftime_Ymd (start + default 0 (early_start a) + day).

(** No repeated key and no negative value. *)
Definition well_formed (d : dict Q) : Prop :=
  NoDup (dict_keys d) ∧ Forall (λ kv, (0 <= kv.2)%Q) d.

(** *** Sample inputs *)


(** 100 over three days, 50 over two days from the third day on. *)
Definition overlap_example : list activity :=
  [ {| cost := Some 100%Q; duration := Some 3; early_start := Some 0 |};
    {| cost := Some 50%Q; duration := Some 2; early_start := Some 2 |} ].

End ProductivityCalculator.

(** ** The budget calculator *)

Module BudgetCalculator.

(** One entry of the ['materials'] dict of a composition. *)
Record material := Material {
  quantity : Q;
  material_unit : string
}.

(** One entry of [DEFAULT_COMPOSITIONS]. *)
Record composition := Composition {
  description : string;
  composition_unit : string;
  materials : dict material;
  labor_hours : Q;
  equipment_hours : Q
}.

Definition DEFAULT_COMPOSITIONS : dict composition :=
  [ ("concreto_fck25",
     {| description := "Concreto FCK 25 MPa";
        composition_unit := "m³";
        materials :=
          [ ("cimento", {| quantity := 350; material_unit := "kg" |});
            ("areia", {| quantity := 55 # 100; material_unit := "m³" |});
            ("brita", {| quantity := 9 # 10; material_unit := "m³" |});
            ("agua", {| quantity := 180; material_unit := "L" |}) ];
        labor_hours := 45 # 10;
        equipment_hours := 12 # 10 |});
    ("alvenaria_bloco",
     {| description := "Alvenaria com bloco cerâmico 14x19x39cm";
        composition_unit := "m²";
        materials :=
          [ ("bloco_ceramico", {| quantity := 13; material_unit := "un" |});
            ("argamassa", {| quantity := 12 # 1000; material_unit := "m³" |});
            ("aco_ca50", {| quantity := 15 # 10; material_unit := "kg" |}) ];
        labor_hours := 8 # 10;
        equipment_hours := 0 |});
    ("piso_ceramico",
     {| description := "Piso cerâmico 45x45cm";
        composition_unit := "m²";
        materials :=
          [ ("ceramica", {| quantity := 105 # 100; material_unit := "m²" |});
            ("argamassa_cola", {| quantity := 5; material_unit := "kg" |});
            ("rejunte", {| quantity := 5 # 10; material_unit := "kg" |}) ];
        labor_hours := 6 # 10;
        equipment_hours := 0 |}) ]%Q.

Definition MATERIAL_PRICES : dict Q :=
  [ ("cimento", 85 # 100); ("areia", 65); ("brita", 80); ("agua", 5 # 1000);
    ("bloco_ceramico", 125 # 100); ("argamassa", 180); ("aco_ca50", 680 # 100);
    ("ceramica", 45); ("argamassa_cola", 12); ("rejunte", 850 # 100) ]%Q.

Definition LABOR_COST : Q := 25.
Definition EQUIPMENT_COST : Q := 15.

(** The dict returned by [calculate_composition_cost]. *)
Record composition_cost := CompositionCost {
  cost_description : string;
  cost_unit : string;
  materials_cost : Q;
  labor_cost : Q;
  equipment_cost : Q;
  total_unit_cost : Q;
  breakdown : dict material
}.

(** The body of the loop over [comp['materials'].items()]. *)
Definition add_material_cost (materials_cost : Q) (entry : string * material)
    : Q :=
  let unit_price := default 0%Q (dict_get MATERIAL_PRICES entry.1) in
  (materials_cost + quantity entry.2 * unit_price)%Q.

Definition calculate_composition_cost (composition_key : string)
    : exn + composition_cost :=
  match dict_get DEFAULT_COMPOSITIONS composition_key with
  | None =>
      inl (ValueError ("Composição '" +:+ composition_key +:+ "' não encontrada"))
  | Some comp =>
      let materials_cost := foldl add_material_cost 0%Q (materials comp) in
      let labor_cost := (labor_hours comp * LABOR_COST)%Q in
      let equipment_cost := (equipment_hours comp * EQUIPMENT_COST)%Q in
      let total_unit_cost := (materials_cost + labor_cost + equipment_cost)%Q in
      inr {| cost_description := description comp;
             cost_unit := composition_unit comp;
             materials_cost := py_round materials_cost 2;
             labor_cost := py_round labor_cost 2;
             equipment_cost := py_round equipment_cost 2;
             total_unit_cost := py_round total_unit_cost 2;
             breakdown := materials comp |}
  end.



(** [sum(...)] over numbers. *)
Definition py_sum (l : list Q) : Q := foldl Qplus 0%Q l.


(** The dict returned by [apply_profit_margin]. *)
Record budget_with_profit := BudgetWithProfit {
  profit_subtotal : Q;
  profit_margin : Q;
  profit_value : Q;
  total : Q
}.

Definition apply_profit_margin (subtotal margin_percent : Q)
    : budget_with_profit :=
  let profit := (subtotal * (margin_percent / 100))%Q in
  let total_with_profit := (subtotal + profit)%Q in
  {| profit_subtotal := py_round subtotal 2;
     profit_margin := py_round margin_percent 2;
     profit_value := py_round profit 2;
     total := py_round total_with_profit 2 |}.

(** *** Sample items *)



End BudgetCalculator.

(** ** The report generator *)

Module ReportGenerator.
Import ScheduleCalculator.

(** The [schedule_data] dict read by [generate_schedule_report]: a key that
    is missing is [None]. *)
Record schedule_data := ScheduleData {
  sd_project_duration : option Z;
  sd_critical_path : option (list Z);
  sd_activities : option (list activity)
}.

(** The dict returned by [generate_schedule_report]. *)
Record schedule_report := ScheduleReport {
  report_type : string;
  project_name : string;
  report_duration : Z;
  report_critical_activities : nat;
  report_total_activities : nat;
  generated_at : string;
  status : string
}.

(** [generate_schedule_report]. [project_name] is the ['name'] entry of
    [project_data], [None] when missing; [now] is the text of
    [datetime.now().strftime('%d/%m/%Y %H:%M')]. *)
Definition generate_schedule_report (project_name : option string)
    (data : schedule_data) (now : string) : schedule_report :=
  {| report_type := "schedule";
     project_name := default "" project_name;
     report_duration := default 0 (sd_project_duration data);
     report_critical_activities := length (default [] (sd_critical_path data));
     report_total_activities := length (default [] (sd_activities data));
     generated_at := now;
     status := "ready_for_pdf_generation" |}.

(** The dict returned by [calculate_cpm] as [schedule_data]: its keys
    ['project_duration'], ['critical_path'] and ['activities'] are all
    present. *)
Definition of_cpm_result (r : cpm_result) : schedule_data :=
  {| sd_project_duration := Some (project_duration r);
     sd_critical_path := Some (critical_path r);
     sd_activities := Some (activities r) |}.

End ReportGenerator.

(** ** The views of [routes.py] that call the calculators *)

Module Routes.
Import ScheduleCalculator BudgetCalculator.

(** *** The schedule view *)

(** A row of [ScheduleActivity] as [schedule_detail] reads it. The column
    [predecessors] is text holding the JSON written by [new_activity]:
    [None] stands for a column that is NULL or the empty text, [Some l] for
    the JSON text of the list [l]. *)
Record schedule_activity := ScheduleActivity {
  row_id : Z;
  row_name : string;
  row_duration : Z;
  row_predecessors : option (list Z)
}.

(** The loop of [schedule_detail] that fills the calculator. *)
Definition add_row (acts : list activity) (row : schedule_activity)
    : list activity :=
  let predecessors := default [] (row_predecessors row) in
  add_activity (row_id row) (row_name row) (row_duration row)
    (Some predecessors) acts.

(** [schedule_detail], from the rows of the schedule and the ordinal of
    [project.start_date] to the [cpm_data] and [gantt_data] handed to the
    template. An exception of the calculator leaves the view. *)
Definition schedule_detail (rows : list schedule_activity) (start : Z)
    : exn + (option cpm_result * list gantt_record) :=
  if decide (rows = []) then inr (None, [])
  else
    let calculator := foldl add_row [] rows in
    let '(cpm, calculator1) := calculate_cpm calculator in
    cpm_data ← cpm;
    let '(gantt, _) := generate_gantt_data start calculator1 in
    gantt_data ← gantt;
    mret (Some cpm_data, gantt_data).

(** *** The budget views *)




(** [code_map] of [get_sinapi_composition]. *)
Definition code_map : dict string :=
  [ ("92885", "concreto_fck25"); ("87487", "alvenaria_bloco");
    ("87269", "piso_ceramico") ].

(** [get_sinapi_composition]: [Some data] stands for the answer with
    ['found': True], [None] for the one with ['found': False]. *)
Definition get_sinapi_composition (code : string)
    : exn + option composition_cost :=
  match dict_get code_map code with
  | Some composition_key =>
      composition_data ← calculate_composition_cost composition_key;
      mret (Some composition_data)
  | None => mret None
  end.

(** *** Sample rows *)


End Routes.

(** * Properties *)

(** ** Lists, maxima and minima *)

Lemma foldl_max_ge x xs : x ≤ foldl Z.max x xs.
Proof.
  revert x. induction xs as [|y ys IH]; intros x; simpl; [lia|].
  specialize (IH (Z.max x y)). lia.
Qed.

Lemma foldl_max_upper x xs : Forall (λ y, y ≤ foldl Z.max x xs) xs.
Proof.
  revert x. induction xs as [|y ys IH]; intros x; simpl; constructor.
  - pose proof (foldl_max_ge (Z.max x y) ys). lia.
  - apply IH.
Qed.

Lemma foldl_max_elem x xs : foldl Z.max x xs ∈ x :: xs.
Proof.
  revert x. induction xs as [|y ys IH]; intros x; simpl; [set_solver|].
  specialize (IH (Z.max x y)). apply elem_of_cons in IH as [IH|IH].
  - rewrite IH. destruct (Z.max_spec x y) as [[_ ->]|[_ ->]]; set_solver.
  - set_solver.
Qed.

(** Two lists that correspond position by position give the same values
    under a filter that selects corresponding positions. *)
Lemma fmap_filter_Forall2 {A A' B} (P : A → Prop) (Q : A' → Prop)
    `{∀ x, Decision (P x)} `{∀ x, Decision (Q x)} (f : A → B) (g : A' → B) s t :
  Forall2 (λ a b, (P a ↔ Q b) ∧ (P a → f a = g b)) s t →
  f <$> filter P s = g <$> filter Q t.
Proof.
  induction 1 as [|a b s t [Hiff Hfg] _ IH]; [done|].
  rewrite !filter_cons. destruct (decide (P a)) as [Hp|Hp].
  - rewrite decide_True by tauto. rewrite !fmap_cons. by rewrite IH, Hfg.
  - rewrite decide_False by tauto. done.
Qed.

Lemma filter_iff_Forall {A} (P Q : A → Prop)
    `{∀ x, Decision (P x)} `{∀ x, Decision (Q x)} l :
  Forall (λ x, P x ↔ Q x) l → filter P l = filter Q l.
Proof.
  induction 1 as [|x l Hx _ IH]; [done|].
  rewrite !filter_cons, IH. destruct (decide (P x)).
  - by rewrite decide_True by tauto.
  - by rewrite decide_False by tauto.
Qed.

(** ** Dates *)

(** The calendar on known days, a leap day among them. *)
Example strftime_Ymd_samples :
  strftime_Ymd <$> [1; 693596; 730120; 738886; 738945; 738946; 3652059]
  = ["0001-01-01"; "1900-01-01"; "2000-01-01"; "2024-01-01"; "2024-02-29";
     "2024-03-01"; "9999-12-31"].
Proof. by vm_compute. Qed.

Lemma date_add_inr d n o : date_add d n = inr o → o = d + n.
Proof.
  unfold date_add, timedelta_days. case_decide; simpl; [|done].
  case_decide; [|done]. by intros [= <-].
Qed.

Lemma date_add_in_range d n :
  0 < d ≤ MAXORDINAL → 0 < d + n ≤ MAXORDINAL → date_add d n = inr (d + n).
Proof.
  unfold date_add, timedelta_days, MAXORDINAL. intros Hd Hn.
  rewrite decide_True by lia. simpl. by rewrite decide_True by done.
Qed.

(** ** Relations *)

Lemma tc_first_step {A} (R : relation A) x y : tc R x y → ∃ z, R x z.
Proof. destruct 1; eauto. Qed.

Module ScheduleFacts.
Import ScheduleCalculator.

Lemma activity_eq a b : inputs a = inputs b → computed a = computed b → a = b.
Proof. destruct a, b; unfold inputs, computed; simpl; congruence. Qed.

(** Position-wise reading of [inputs <$> s = inputs <$> t]. *)
Lemma same_inputs_length (s t : list activity) :
  inputs <$> s = inputs <$> t → length s = length t.
Proof. intros E. by rewrite <-(length_fmap inputs s), E, length_fmap. Qed.

Lemma same_inputs_lookup (s t : list activity) i a :
  inputs <$> s = inputs <$> t → s !! i = Some a →
  ∃ b, t !! i = Some b ∧ inputs b = inputs a.
Proof.
  intros E Hs. assert (Hi : (inputs <$> t) !! i = Some (inputs a))
    by (by rewrite <-E, list_lookup_fmap, Hs).
  rewrite list_lookup_fmap in Hi. destruct (t !! i) as [b|]; [|done].
  exists b. split; [done|]. simpl in Hi. congruence.
Qed.

Lemma same_inputs_ids (s t : list activity) :
  inputs <$> s = inputs <$> t → id <$> s = id <$> t.
Proof.
  assert (Hc : ∀ l : list activity, id <$> l = (λ x, x.1.1.1) <$> (inputs <$> l)).
  { intros l. by rewrite <-list_fmap_compose. }
  intros E. by rewrite !Hc, E.
Qed.

Lemma inputs_id a b : inputs a = inputs b → id a = id b.
Proof. unfold inputs. congruence. Qed.
Lemma inputs_duration a b : inputs a = inputs b → duration a = duration b.
Proof. unfold inputs. congruence. Qed.
Lemma inputs_predecessors a b :
  inputs a = inputs b → predecessors a = predecessors b.
Proof. unfold inputs. congruence. Qed.

(** [add_activity] puts the new activity behind the ones added before: the
    positions of the list are the order of insertion. *)
Lemma add_activity_lookup activity_id nm dur preds acts :
  (∀ i, (i < length acts)%nat →
     add_activity activity_id nm dur preds acts !! i = acts !! i) ∧
  inputs <$> add_activity activity_id nm dur preds acts !! length acts
  = Some (activity_id, nm, dur, default [] preds).
Proof.
  unfold add_activity. split.
  - intros i Hi. by apply lookup_app_l.
  - by rewrite list_lookup_middle.
Qed.

(** *** The forward loop, iteration by iteration *)

Lemma forward_pass_upto acts : forward_pass acts = forward_upto acts (length acts).
Proof. done. Qed.

Lemma forward_upto_S acts m :
  forward_upto acts (S m) = forward_step (forward_upto acts m) m.
Proof. unfold forward_upto. by rewrite seq_S, foldl_app. Qed.

Lemma forward_step_inputs s i : inputs <$> forward_step s i = inputs <$> s.
Proof.
  unfold forward_step. destruct (s !! i) as [a|] eqn:E; [|done].
  rewrite list_fmap_insert. apply list_insert_id.
  by rewrite list_lookup_fmap, E.
Qed.

Lemma forward_step_lookup_ne s i j : i ≠ j → forward_step s i !! j = s !! j.
Proof.
  intros Hij. unfold forward_step. destruct (s !! i); [|done].
  by apply list_lookup_insert_ne.
Qed.

Lemma forward_step_lookup s i a :
  s !! i = Some a →
  forward_step s i !! i = Some (set_early a (forward_early_start s a)).
Proof.
  intros E. unfold forward_step. rewrite E.
  apply list_lookup_insert_eq. by eapply lookup_lt_Some.
Qed.

Lemma forward_upto_inputs acts m : inputs <$> forward_upto acts m = inputs <$> acts.
Proof.
  induction m as [|m IH]; [done|]. by rewrite forward_upto_S, forward_step_inputs.
Qed.

(** Iterations before [i] leave position [i] as it was. *)
Lemma forward_upto_lookup_ge acts m i :
  (m ≤ i)%nat → forward_upto acts m !! i = acts !! i.
Proof.
  induction m as [|m IH]; intros Hmi; [done|].
  rewrite forward_upto_S, forward_step_lookup_ne by lia. apply IH. lia.
Qed.

(** Iterations after [i] leave position [i] as iteration [i] left it. *)
Lemma forward_upto_lookup_lt acts m i :
  (i < m)%nat → forward_upto acts m !! i = forward_upto acts (S i) !! i.
Proof.
  induction m as [|m IH]; intros Him; [lia|].
  destruct (decide (i = m)) as [->|Hne]; [done|].
  rewrite forward_upto_S, forward_step_lookup_ne by lia. apply IH. lia.
Qed.

Lemma forward_upto_lookup_at acts i a :
  acts !! i = Some a →
  forward_upto acts (S i) !! i
  = Some (set_early a (forward_early_start (forward_upto acts i) a)).
Proof.
  intros E. rewrite forward_upto_S. apply forward_step_lookup.
  by rewrite forward_upto_lookup_ge.
Qed.

(** What the forward pass leaves at position [i]. *)
Lemma forward_pass_lookup acts i a :
  acts !! i = Some a →
  forward_pass acts !! i
  = Some (set_early a (forward_early_start (forward_upto acts i) a)).
Proof.
  intros E. rewrite forward_pass_upto.
  rewrite forward_upto_lookup_lt by (by eapply lookup_lt_Some).
  by apply forward_upto_lookup_at.
Qed.

(** *** The backward loop, iteration by iteration *)

Lemma backward_pass_downto pd s : backward_pass pd s = backward_downto pd s 0.
Proof. unfold backward_pass, backward_downto. by rewrite Nat.sub_0_r. Qed.

Lemma backward_downto_ge pd s m : (length s ≤ m)%nat → backward_downto pd s m = s.
Proof.
  intros Hm. unfold backward_downto. by replace (length s - m)%nat with 0%nat by lia.
Qed.

Lemma backward_downto_lt pd s m :
  (m < length s)%nat →
  backward_downto pd s m = backward_step pd (backward_downto pd s (S m)) m.
Proof.
  intros Hm. unfold backward_downto.
  replace (length s - m)%nat with (S (length s - S m)) by lia.
  simpl. by rewrite reverse_cons, foldl_app.
Qed.

Lemma backward_step_inputs pd s i : inputs <$> backward_step pd s i = inputs <$> s.
Proof.
  unfold backward_step. destruct (s !! i) as [a|] eqn:E; [|done].
  rewrite list_fmap_insert. apply list_insert_id.
  by rewrite list_lookup_fmap, E.
Qed.

Lemma backward_step_lookup_ne pd s i j : i ≠ j → backward_step pd s i !! j = s !! j.
Proof.
  intros Hij. unfold backward_step. destruct (s !! i); [|done].
  by apply list_lookup_insert_ne.
Qed.

Lemma backward_step_lookup pd s i a :
  s !! i = Some a →
  backward_step pd s i !! i = Some (set_late a (backward_late_finish pd s a)).
Proof.
  intros E. unfold backward_step. rewrite E.
  apply list_lookup_insert_eq. by eapply lookup_lt_Some.
Qed.

(** Downward induction on the positions of a list of length [n]. *)
Lemma downward_ind (n : nat) (P : nat → Prop) :
  (∀ m, (n ≤ m)%nat → P m) →
  (∀ m, (m < n)%nat → P (S m) → P m) →
  ∀ m, P m.
Proof.
  intros Hge Hlt m. remember (n - m)%nat as k eqn:Hk.
  revert m Hk. induction k as [|k IH]; intros m Hk.
  - apply Hge. lia.
  - apply Hlt; [lia|]. apply IH. lia.
Qed.

Lemma backward_downto_inputs pd s m : inputs <$> backward_downto pd s m = inputs <$> s.
Proof.
  revert m. apply (downward_ind (length s)); intros m Hm.
  - by rewrite backward_downto_ge.
  - intros IH. by rewrite backward_downto_lt, backward_step_inputs.
Qed.

Lemma backward_downto_lookup_lt pd s m i :
  (i < m)%nat → backward_downto pd s m !! i = s !! i.
Proof.
  revert m. apply (downward_ind (length s) (λ m, (i < m)%nat → _)); intros m Hm.
  - intros _. by rewrite backward_downto_ge.
  - intros IH Him. rewrite backward_downto_lt, backward_step_lookup_ne by lia.
    apply IH. lia.
Qed.

Lemma backward_downto_lookup_ge pd s m i :
  (m ≤ i)%nat → backward_downto pd s m !! i = backward_downto pd s i !! i.
Proof.
  revert m. apply (downward_ind (length s) (λ m, (m ≤ i)%nat → _)); intros m Hm.
  - intros Hmi. by rewrite !backward_downto_ge by lia.
  - intros IH Hmi. destruct (decide (m = i)) as [->|Hne]; [done|].
    rewrite backward_downto_lt, backward_step_lookup_ne by lia. apply IH. lia.
Qed.

Lemma backward_downto_lookup_at pd s i a :
  s !! i = Some a →
  backward_downto pd s i !! i
  = Some (set_late a (backward_late_finish pd (backward_downto pd s (S i)) a)).
Proof.
  intros E. rewrite backward_downto_lt by (by eapply lookup_lt_Some).
  apply backward_step_lookup. by rewrite backward_downto_lookup_lt by lia.
Qed.

(** What the backward pass leaves at position [i]. *)
Lemma backward_pass_lookup pd s i a :
  s !! i = Some a →
  backward_pass pd s !! i
  = Some (set_late a (backward_late_finish pd (backward_downto pd s (S i)) a)).
Proof.
  intros E. rewrite backward_pass_downto, backward_downto_lookup_ge by lia.
  by apply backward_downto_lookup_at.
Qed.

(** *** Looking activities up by id *)

Lemma find_activity_Some s p b :
  find_activity s p = Some b ↔
  ∃ j, s !! j = Some b ∧ id b = p ∧
       ∀ k c, s !! k = Some c → (k < j)%nat → id c ≠ p.
Proof.
  unfold find_activity. split.
  - destruct (list_find _ s) as [[j c]|] eqn:E; [|done].
    simpl. intros [= ->]. apply list_find_Some in E. by exists j.
  - intros (j & Hj & Hid & Hfirst).
    assert (list_find (λ a, id a = p) s = Some (j, b)) as ->; [|done].
    by apply list_find_Some.
Qed.

Lemma find_activity_None s p : find_activity s p = None ↔ p ∉ id <$> s.
Proof.
  unfold find_activity. rewrite fmap_None, list_find_None, Forall_forall.
  rewrite list_elem_of_fmap. split.
  - intros H (a & -> & Ha). by apply (H a).
  - intros H a Ha Hid. apply H. by exists a.
Qed.

(** Two lists with the same ids answer a lookup at the same position. *)
Lemma find_activity_same_ids s s' p :
  id <$> s = id <$> s' →
  (∀ j b b', s !! j = Some b → s' !! j = Some b' → id b = p →
     early_finish b = early_finish b') →
  early_finish <$> find_activity s p = early_finish <$> find_activity s' p.
Proof.
  intros Hids Hef.
  assert (Hlook : ∀ j, id <$> s !! j = id <$> s' !! j).
  { intros j. by rewrite <-!list_lookup_fmap, Hids. }
  destruct (find_activity s p) as [b|] eqn:E.
  - apply find_activity_Some in E as (j & Hj & Hid & Hfirst).
    pose proof (Hlook j) as Hj'. rewrite Hj in Hj'.
    destruct (s' !! j) as [b'|] eqn:Ej'; [|done]. injection Hj' as Hbb'.
    assert (find_activity s' p = Some b') as ->.
    { apply find_activity_Some. exists j. split; [done|]. split; [congruence|].
      intros k c' Hk Hkj. pose proof (Hlook k) as Hk'. rewrite Hk in Hk'.
      destruct (s !! k) as [c|] eqn:Ek; [|done]. injection Hk' as Hcc'.
      rewrite <-Hcc'. by eapply Hfirst. }
    simpl. f_equal. by eapply Hef.
  - apply find_activity_None in E. rewrite Hids in E.
    apply find_activity_None in E. by rewrite E.
Qed.

Lemma forward_early_start_max_finish s a :
  forward_early_start s a = max_finish s (predecessors a).
Proof. unfold forward_early_start. case_decide as E; [by rewrite E|done]. Qed.

(** The forward maximum only depends on the finish times it looks up. *)
Lemma max_finish_ext s s' preds :
  (∀ p, p ∈ preds →
     early_finish <$> find_activity s p = early_finish <$> find_activity s' p) →
  max_finish s preds = max_finish s' preds.
Proof.
  unfold max_finish. generalize 0. induction preds as [|p preds IH]; intros m H; [done|].
  simpl. assert (Hp := H p ltac:(set_solver)).
  destruct (find_activity s p), (find_activity s' p); simpl in Hp;
    try discriminate Hp; try (injection Hp as ->); apply IH; set_solver.
Qed.

(** The inner loop started from any value [m0]: the outcome is at least
    [m0], at least every finish time found, and [m0] or one of them. *)
Lemma max_finish_loop_bounds s preds m0 :
  let step := λ m pred_id,
    match find_activity s pred_id with
    | Some pred => Z.max m (early_finish pred)
    | None => m
    end in
  m0 ≤ foldl step m0 preds ∧
  (∀ p b, p ∈ preds → find_activity s p = Some b →
     early_finish b ≤ foldl step m0 preds) ∧
  (foldl step m0 preds = m0 ∨
   ∃ p b, p ∈ preds ∧ find_activity s p = Some b ∧
          foldl step m0 preds = early_finish b).
Proof.
  intros step. revert m0. induction preds as [|p preds IH]; intros m0; simpl.
  - split; [lia|]. split; [set_solver|]. by left.
  - unfold step at 2 4 6 8. destruct (find_activity s p) as [b|] eqn:E.
    + destruct (IH (Z.max m0 (early_finish b))) as (Hge & Hub & Hat).
      split; [lia|]. split.
      * intros q c [->|Hq]%elem_of_cons Hc; [|by eapply Hub].
        rewrite E in Hc. injection Hc as <-. lia.
      * destruct Hat as [Hat|(q & c & Hq & Hc & Hat)].
        -- destruct (Z.max_spec m0 (early_finish b)) as [[_ Hm]|[_ Hm]];
             [|left; congruence].
           right. exists p, b. split; [apply list_elem_of_here|].
           split; [done|congruence].
        -- right. exists q, c. split; [by apply list_elem_of_further|done].
    + destruct (IH m0) as (Hge & Hub & Hat).
      split; [done|]. split.
      * intros q c [->|Hq]%elem_of_cons Hc; [congruence|by eapply Hub].
      * destruct Hat as [Hat|(q & c & Hq & Hc & Hat)]; [by left|].
        right. exists q, c. split; [by apply list_elem_of_further|done].
Qed.

Lemma max_finish_bounds s preds :
  0 ≤ max_finish s preds ∧
  (∀ p b, p ∈ preds → find_activity s p = Some b →
     early_finish b ≤ max_finish s preds) ∧
  (max_finish s preds = 0 ∨
   ∃ p b, p ∈ preds ∧ find_activity s p = Some b ∧
          max_finish s preds = early_finish b).
Proof. apply max_finish_loop_bounds. Qed.

Lemma is_max_or_intro d l m :
  (∀ x, x ∈ l → d ≤ x ≤ m) → (m = d ∨ m ∈ l) → is_max_or d l m.
Proof.
  intros Hb Hat. destruct l as [|x xs]; simpl.
  - destruct Hat as [?|?%elem_of_nil]; done.
  - split.
    + destruct Hat as [->|?]; [|done].
      assert (d ≤ x ≤ d) by (apply Hb, list_elem_of_here).
      replace d with x by lia. apply list_elem_of_here.
    + apply Forall_forall. intros y Hy. by apply Hb.
Qed.

Lemma is_max_or_unique d l m m' : is_max_or d l m → is_max_or d l m' → m = m'.
Proof.
  destruct l as [|x xs]; simpl; [congruence|].
  rewrite !Forall_forall. intros [Hm Hle] [Hm' Hle'].
  apply Hle' in Hm. apply Hle in Hm'. lia.
Qed.

(** *** Insertion order and the predecessor graph *)

Lemma insertion_ordered_same_inputs s t :
  inputs <$> s = inputs <$> t → insertion_ordered t → insertion_ordered s.
Proof.
  intros E Ht i k a b Ha Hb Hin.
  destruct (same_inputs_lookup _ _ _ _ E Ha) as (a' & Ha' & Eqa).
  destruct (same_inputs_lookup _ _ _ _ E Hb) as (b' & Hb' & Eqb).
  apply (Ht i k a' b' Ha' Hb').
  by rewrite (inputs_id _ _ Eqb), (inputs_predecessors _ _ Eqa).
Qed.

(** A collection added in dependency order has no cycle. *)
Lemma insertion_ordered_acyclic acts : insertion_ordered acts → ¬ has_cycle acts.
Proof.
  intros Hord [a Hcyc].
  assert (H : ∀ x y, tc (depends_on acts) x y →
            ∀ i k, acts !! i = Some x → acts !! k = Some y → (k < i)%nat).
  { induction 1 as [x y (_ & _ & Hxy)|x y z (_ & Hy & Hxy) _ IH];
      intros i k Hi Hk; [by eapply Hord|].
    apply list_elem_of_lookup in Hy as [j Hj].
    specialize (IH j k Hj Hk). specialize (Hord i j x y Hi Hj Hxy). lia. }
  destruct (tc_first_step _ _ _ Hcyc) as (b & Ha & _).
  apply list_elem_of_lookup in Ha as [i Hi]. specialize (H a a Hcyc i i Hi Hi). lia.
Qed.

Lemma has_cycle_nonempty acts : has_cycle acts → acts ≠ [].
Proof.
  intros [a Hcyc] ->. destruct (tc_first_step _ _ _ Hcyc) as (b & Ha & _).
  by apply elem_of_nil in Ha.
Qed.

(** The backward pass keeps what the caller supplied and the early times. *)
Lemma backward_pass_early pd s :
  Forall2 (λ a b, inputs b = inputs a ∧ early_start b = early_start a ∧
                  early_finish b = early_finish a) s (backward_pass pd s).
Proof.
  apply Forall2_same_length_lookup_2.
  - symmetry. apply same_inputs_length.
    by rewrite backward_pass_downto, backward_downto_inputs.
  - intros i a b Ha Hb. rewrite (backward_pass_lookup pd s i a Ha) in Hb.
    by injection Hb as <-.
Qed.

(** *** Early times of a collection added in dependency order *)

(** Positions already handled hold their final value. *)
Lemma forward_upto_lookup_done acts i j :
  (j < i)%nat → (i ≤ length acts)%nat →
  forward_upto acts i !! j = forward_pass acts !! j.
Proof.
  intros Hji Hi. rewrite forward_pass_upto.
  rewrite (forward_upto_lookup_lt acts i j) by done.
  by rewrite (forward_upto_lookup_lt acts (length acts) j) by lia.
Qed.

Lemma forward_pass_inputs acts : inputs <$> forward_pass acts = inputs <$> acts.
Proof. apply forward_upto_inputs. Qed.

Lemma forward_pass_early_finish_nonneg acts j b :
  Forall (λ a, 0 ≤ duration a) acts →
  forward_pass acts !! j = Some b → 0 ≤ early_finish b.
Proof.
  intros Hdur Hb.
  destruct (same_inputs_lookup _ _ j b (forward_pass_inputs acts) Hb) as (b0 & Hb0 & _).
  rewrite (forward_pass_lookup acts j b0 Hb0) in Hb. injection Hb as <-. simpl.
  rewrite forward_early_start_max_finish.
  destruct (max_finish_bounds (forward_upto acts j) (predecessors b0)) as (Hge & _).
  rewrite Forall_lookup in Hdur. specialize (Hdur j b0 Hb0). simpl in Hdur. lia.
Qed.

(** With unique ids, durations that are not negative and every predecessor
    added first, the forward pass leaves at each activity the maximum of
    the final finish times of the activities its predecessor list names. *)
Lemma forward_pass_early_start acts i a1 :
  NoDup (id <$> acts) → Forall (λ a, 0 ≤ duration a) acts →
  insertion_ordered acts →
  forward_pass acts !! i = Some a1 →
  is_max_or 0
    (early_finish <$> filter (λ b, id b ∈ predecessors a1) (forward_pass acts))
    (early_start a1) ∧
  early_finish a1 = early_start a1 + duration a1.
Proof.
  intros Hnodup Hdur Hord Ha1.
  pose proof (forward_pass_inputs acts) as Hin.
  destruct (same_inputs_lookup _ _ i a1 Hin Ha1) as (a0 & Ha0 & Ein).
  pose proof (lookup_lt_Some _ _ _ Ha0) as Hi.
  pose proof (insertion_ordered_same_inputs _ _ Hin Hord) as Hord1.
  assert (Hnodup1 : NoDup (id <$> forward_pass acts)).
  { by rewrite (same_inputs_ids _ _ Hin). }
  pose proof Ha1 as Ha1'.
  rewrite (forward_pass_lookup acts i a0 Ha0) in Ha1'. injection Ha1' as Ea1.
  rewrite forward_early_start_max_finish in Ea1.
  set (M := max_finish (forward_upto acts i) (predecessors a0)) in *.
  destruct (max_finish_bounds (forward_upto acts i) (predecessors a0))
    as (Hge & Hub & Hat). fold M in Hge, Hub, Hat.
  assert (Hes : early_start a1 = M) by (by rewrite <-Ea1).
  assert (Hpre : predecessors a1 = predecessors a0) by (by rewrite <-Ea1).
  split; [|by rewrite <-Ea1]. rewrite Hes, Hpre.
  (* an activity found by the loop is one of the final list, and conversely *)
  assert (Hfound : ∀ p b, p ∈ predecessors a0 →
            find_activity (forward_upto acts i) p = Some b →
            b ∈ filter (λ b, id b ∈ predecessors a0) (forward_pass acts)).
  { intros p b Hp (j & Hj & Hid & _)%find_activity_Some.
    assert (Hji : (j < i)%nat).
    { destruct (same_inputs_lookup _ _ j b (forward_upto_inputs acts i) Hj)
        as (b0 & Hb0 & Eb).
      apply (Hord i j a0 b0 Ha0 Hb0). by rewrite (inputs_id _ _ Eb), Hid. }
    rewrite forward_upto_lookup_done in Hj by lia.
    apply list_elem_of_filter. split; [by rewrite Hid|].
    apply list_elem_of_lookup. by exists j. }
  assert (Hall : ∀ b, b ∈ filter (λ b, id b ∈ predecessors a0) (forward_pass acts) →
            find_activity (forward_upto acts i) (id b) = Some b ∧
            id b ∈ predecessors a0 ∧ 0 ≤ early_finish b).
  { intros b [Hb [j Hj]%list_elem_of_lookup]%list_elem_of_filter.
    assert (Hji : (j < i)%nat).
    { apply (Hord1 i j a1 b Ha1 Hj). by rewrite Hpre. }
    split; [|split; [done|by eapply forward_pass_early_finish_nonneg]].
    apply find_activity_Some. exists j.
    split; [by rewrite forward_upto_lookup_done by lia|]. split; [done|].
    intros k c Hk Hkj Hidc. rewrite forward_upto_lookup_done in Hk by lia.
    assert (k = j); [|lia].
    apply (NoDup_lookup (id <$> forward_pass acts) k j (id b)); [done|..].
    - by rewrite list_lookup_fmap, Hk, <-Hidc.
    - by rewrite list_lookup_fmap, Hj. }
  apply is_max_or_intro.
  - intros x (b & -> & Hb)%list_elem_of_fmap.
    destruct (Hall b Hb) as (Hfind & Hp & Hnn). split; [done|].
    by apply (Hub (id b) b).
  - destruct Hat as [Hat|(p & b & Hp & Hfind & Hat)]; [by left|right].
    rewrite Hat. apply list_elem_of_fmap. exists b. split; [done|]. by eapply Hfound.
Qed.

Lemma list_max_or_is_max d l : is_max_or d l (list_max_or d l).
Proof.
  destruct l as [|x xs]; simpl; [done|]. split; [apply foldl_max_elem|].
  constructor; [apply foldl_max_ge|apply foldl_max_upper].
Qed.

Lemma reference_early_start_predecessors fuel acts a b :
  predecessors a = predecessors b →
  reference_early_start fuel acts a = reference_early_start fuel acts b.
Proof. intros E. destruct fuel; simpl; [done|]. by rewrite E. Qed.

Lemma fmap_Forall2 {A A' B} (f : A → B) (g : A' → B) s t :
  Forall2 (λ a b, f a = g b) s t → f <$> s = g <$> t.
Proof. induction 1; [done|]. rewrite !fmap_cons. congruence. Qed.

Lemma insertion_ordered_check_sound acts :
  insertion_ordered_check acts = true → insertion_ordered acts.
Proof.
  induction acts as [|a0 rest IH]; intros Hc i k a b Hi Hk Hin.
  - by rewrite lookup_nil in Hi.
  - simpl in Hc. apply andb_prop in Hc as [Hhead Hrest].
    apply andb_prop in Hhead as [Hself Hlater].
    rewrite forallb_forall in Hlater.
    destruct i as [|i].
    + exfalso. injection Hi as ->. destruct k as [|k].
      * injection Hk as ->. by apply bool_decide_eq_true in Hself.
      * assert (Hb : In b rest) by (apply list_elem_of_In, list_elem_of_lookup; eauto).
        apply Hlater, bool_decide_eq_true in Hb. done.
    + destruct k as [|k]; [lia|].
      specialize (IH Hrest i k a b Hi Hk Hin). lia.
Qed.

(** *** Independence from the computed fields found at the start *)

(** In dependency order the forward loop never reads a finish time it has
    not written: two runs on the same supplied fields agree on every
    position handled so far. *)
Lemma forward_upto_agree s s' m :
  insertion_ordered s → inputs <$> s' = inputs <$> s →
  ∀ j a a', (j < m)%nat →
    forward_upto s m !! j = Some a → forward_upto s' m !! j = Some a' →
    early_agree a a'.
Proof.
  intros Hord Hin. induction m as [|m IH]; intros j a a' Hjm Ha Ha'; [lia|].
  destruct (decide (j = m)) as [->|Hne].
  - destruct (same_inputs_lookup _ _ m a (forward_upto_inputs s (S m)) Ha)
      as (a0 & Ha0 & _).
    destruct (same_inputs_lookup _ _ m a' (forward_upto_inputs s' (S m)) Ha')
      as (a0' & Ha0' & _).
    rewrite (forward_upto_lookup_at s m a0 Ha0) in Ha.
    rewrite (forward_upto_lookup_at s' m a0' Ha0') in Ha'.
    injection Ha as <-. injection Ha' as <-.
    destruct (same_inputs_lookup _ _ m a0' Hin Ha0') as (a0'' & Ha0'' & Ein).
    assert (a0'' = a0) as -> by congruence.
    assert (Hes : forward_early_start (forward_upto s' m) a0'
                  = forward_early_start (forward_upto s m) a0).
    { rewrite !forward_early_start_max_finish, <-(inputs_predecessors _ _ Ein).
      apply max_finish_ext. intros p Hp. apply find_activity_same_ids.
      - apply same_inputs_ids. by rewrite !forward_upto_inputs.
      - intros k b' b Hb' Hb Hid.
        assert (Hkm : (k < m)%nat).
        { destruct (same_inputs_lookup _ _ k b (forward_upto_inputs s m) Hb)
            as (b0 & Hb0 & Eb).
          destruct (same_inputs_lookup _ _ k b' (forward_upto_inputs s' m) Hb')
            as (b0' & Hb0' & Eb').
          destruct (same_inputs_lookup _ _ k b0' Hin Hb0') as (b0'' & Hb0'' & Eb'').
          assert (b0'' = b0) as -> by congruence.
          apply (Hord m k a0 b0 Ha0 Hb0).
          pose proof (inputs_id _ _ Eb''). pose proof (inputs_id _ _ Eb').
          rewrite <-Hid in Hp. congruence. }
        by destruct (IH k b b' Hkm Hb Hb') as (_ & _ & ->). }
    unfold early_agree. simpl. rewrite Hes, (inputs_duration _ _ Ein).
    split; [|done]. unfold inputs in *. simpl. congruence.
  - rewrite forward_upto_S, forward_step_lookup_ne in Ha, Ha' by lia.
    apply (IH j); [lia|done..].
Qed.

Lemma forward_pass_agree s s' :
  insertion_ordered s → inputs <$> s' = inputs <$> s →
  Forall2 early_agree (forward_pass s) (forward_pass s').
Proof.
  intros Hord Hin. apply Forall2_same_length_lookup_2.
  - apply same_inputs_length. by rewrite !forward_pass_inputs.
  - intros j a a' Ha Ha'. apply (forward_upto_agree s s' (length s) Hord Hin j).
    + rewrite <-(same_inputs_length _ _ (forward_pass_inputs s)).
      by eapply lookup_lt_Some.
    + done.
    + rewrite forward_pass_upto in Ha'.
      by rewrite (same_inputs_length _ _ Hin) in Ha'.
Qed.

(** The late finish only depends on the late starts of the successors. *)
Lemma backward_late_finish_ext pd t t' a a' :
  late_start <$> successors t a = late_start <$> successors t' a' →
  backward_late_finish pd t a = backward_late_finish pd t' a'.
Proof.
  unfold backward_late_finish.
  destruct (successors t a) as [|x xs], (successors t' a') as [|x' xs'];
    rewrite ?fmap_cons; intros E; simplify_eq; congruence.
Qed.

(** In dependency order the backward loop only reads late starts it has
    written: started from lists that agree on the supplied fields and the
    early times, two runs leave the same activities. *)
Lemma backward_downto_agree pd s s' m :
  insertion_ordered s → Forall2 early_agree s s' →
  ∀ j, (m ≤ j)%nat → backward_downto pd s m !! j = backward_downto pd s' m !! j.
Proof.
  intros Hord Hagree.
  pose proof (Forall2_length _ _ _ Hagree) as Hlen.
  revert m.
  apply (downward_ind (length s) (λ m, ∀ j, (m ≤ j)%nat →
           backward_downto pd s m !! j = backward_downto pd s' m !! j));
    intros m Hm.
  - intros j Hj. rewrite !backward_downto_ge by lia.
    rewrite !lookup_ge_None_2 by lia. done.
  - intros IH j Hj. destruct (decide (j = m)) as [->|Hne].
    + destruct (lookup_lt_is_Some_2 s m Hm) as [a Ha].
      destruct (Forall2_lookup_l _ _ _ m a Hagree Ha) as (a' & Ha' & Ein & Ees & Eef).
      rewrite (backward_downto_lookup_at pd s m a Ha).
      rewrite (backward_downto_lookup_at pd s' m a' Ha').
      f_equal.
      assert (Hlf : backward_late_finish pd (backward_downto pd s (S m)) a
                    = backward_late_finish pd (backward_downto pd s' (S m)) a').
      { apply backward_late_finish_ext. apply fmap_filter_Forall2.
        apply Forall2_same_length_lookup_2.
        { apply same_inputs_length. rewrite !backward_downto_inputs.
          apply fmap_Forall2. eapply Forall2_impl; [exact Hagree|].
          by intros ?? (-> & _). }
        intros k b b' Hb Hb'.
        destruct (decide (m < k)%nat) as [Hmk|Hmk].
        - rewrite (IH k) in Hb by lia. assert (b' = b) as -> by congruence.
          by rewrite (inputs_id _ _ Ein).
        - rewrite backward_downto_lookup_lt in Hb, Hb' by lia.
          destruct (Forall2_lookup_l _ _ _ k b Hagree Hb) as (b'' & Hb'' & Eb & _).
          assert (b'' = b') as -> by congruence.
          rewrite (inputs_id _ _ Ein), (inputs_predecessors _ _ Eb).
          split; [done|]. intros Hsucc. exfalso.
          specialize (Hord k m b a Hb Ha Hsucc). lia. }
      apply activity_eq.
      * unfold inputs in *. simpl. congruence.
      * unfold computed. simpl.
        by rewrite Hlf, Ees, Eef, (inputs_duration _ _ Ein).
    + rewrite (backward_downto_lt pd s m), (backward_downto_lt pd s' m) by lia.
      rewrite !backward_step_lookup_ne by lia. apply IH. lia.
Qed.

(** The outcome of [calculate_cpm] on a collection in dependency order is
    decided by the supplied fields alone. *)
Lemma calculate_cpm_inputs_only s s' :
  insertion_ordered s → inputs <$> s' = inputs <$> s →
  calculate_cpm s' = calculate_cpm s.
Proof.
  intros Hord Hin. pose proof (forward_pass_agree s s' Hord Hin) as Hagree.
  assert (Hef : early_finish <$> forward_pass s' = early_finish <$> forward_pass s).
  { symmetry. apply fmap_Forall2. eapply Forall2_impl; [exact Hagree|].
    by intros a a' (_ & _ & ->). }
  unfold calculate_cpm. rewrite Hef.
  destruct (early_finish <$> forward_pass s) as [|x xs] eqn:E; simpl.
  - apply fmap_nil_inv in E. apply fmap_nil_inv in Hef. by rewrite E, Hef.
  - assert (Hb : backward_pass (foldl Z.max x xs) (forward_pass s')
               = backward_pass (foldl Z.max x xs) (forward_pass s)).
    { rewrite !backward_pass_downto. apply list_eq. intros j. symmetry.
      apply backward_downto_agree; [|done|lia].
      by apply (insertion_ordered_same_inputs _ _ (forward_pass_inputs s)). }
    by rewrite Hb.
Qed.

Lemma calculate_cpm_state_inputs acts :
  inputs <$> snd (calculate_cpm acts) = inputs <$> acts.
Proof.
  unfold calculate_cpm. destruct (py_max _); simpl.
  - apply forward_pass_inputs.
  - by rewrite backward_pass_downto, backward_downto_inputs, forward_pass_inputs.
Qed.

(** *** Predecessor ids that match no activity *)

Section restrict.
Variable ids : list Z.
Local Abbreviation R := (restrict_predecessors ids).

Lemma find_activity_restrict s p :
  find_activity (R <$> s) p = R <$> find_activity s p.
Proof.
  unfold find_activity. rewrite list_find_fmap.
  change ((λ a, id a = p) ∘ R) with (λ a, id a = p).
  by destruct (list_find _ s) as [[j b]|].
Qed.

(** An unknown id leaves the running maximum as it is, so dropping it
    from the list changes nothing. *)
Lemma max_finish_restrict s preds :
  ids = id <$> s →
  max_finish (R <$> s) (filter (λ p, p ∈ ids) preds) = max_finish s preds.
Proof.
  intros Hids. unfold max_finish. generalize 0.
  induction preds as [|p preds IH]; intros m; [done|].
  rewrite filter_cons. simpl. destruct (decide (p ∈ ids)) as [Hp|Hp].
  - simpl. rewrite find_activity_restrict.
    destruct (find_activity s p) as [b|]; simpl; apply IH.
  - assert (find_activity s p = None) as ->; [|apply IH].
    apply find_activity_None. by rewrite <-Hids.
Qed.

Lemma forward_step_restrict s i :
  ids = id <$> s → forward_step (R <$> s) i = R <$> forward_step s i.
Proof.
  intros Hids. unfold forward_step. rewrite list_lookup_fmap.
  destruct (s !! i) as [a|]; simpl; [|done].
  rewrite list_fmap_insert. f_equal.
  rewrite !forward_early_start_max_finish. simpl.
  by rewrite max_finish_restrict.
Qed.

Lemma forward_upto_restrict s m :
  ids = id <$> s → forward_upto (R <$> s) m = R <$> forward_upto s m.
Proof.
  intros Hids. induction m as [|m IH]; [done|].
  rewrite !forward_upto_S, IH. apply forward_step_restrict.
  by rewrite (same_inputs_ids _ _ (forward_upto_inputs s m)).
Qed.

Lemma successors_restrict t a :
  id a ∈ ids →
  late_start <$> successors (R <$> t) (R a) = late_start <$> successors t a.
Proof.
  intros Ha. unfold successors. apply fmap_filter_Forall2.
  apply Forall2_fmap_l, Forall_Forall2_diag, Forall_forall.
  intros b _. simpl. rewrite list_elem_of_filter. tauto.
Qed.

Lemma backward_step_restrict pd t i :
  ids = id <$> t → backward_step pd (R <$> t) i = R <$> backward_step pd t i.
Proof.
  intros Hids. unfold backward_step. rewrite list_lookup_fmap.
  destruct (t !! i) as [a|] eqn:E; simpl; [|done].
  rewrite list_fmap_insert. f_equal.
  assert (Hlf : backward_late_finish pd (R <$> t) (R a)
                = backward_late_finish pd t a).
  { apply backward_late_finish_ext, successors_restrict.
    rewrite Hids. apply list_elem_of_fmap. exists a. split; [done|].
    by eapply list_elem_of_lookup_2. }
  rewrite Hlf. done.
Qed.

Lemma backward_downto_restrict pd t m :
  ids = id <$> t →
  backward_downto pd (R <$> t) m = R <$> backward_downto pd t m.
Proof.
  intros Hids. revert m.
  apply (downward_ind (length t) (λ m,
           backward_downto pd (R <$> t) m = R <$> backward_downto pd t m));
    intros m Hm.
  - by rewrite !backward_downto_ge by (rewrite ?length_fmap; lia).
  - intros IH.
    rewrite (backward_downto_lt pd (R <$> t) m) by (rewrite length_fmap; lia).
    rewrite (backward_downto_lt pd t m) by lia.
    rewrite IH. apply backward_step_restrict.
    by rewrite (same_inputs_ids _ _ (backward_downto_inputs pd t (S m))).
Qed.
End restrict.

End ScheduleFacts.

Module ScheduleTheorems.
Import ScheduleCalculator ScheduleFacts.

(** Outcome of [calculate_cpm] on a collection with at least one activity. *)
Lemma calculate_cpm_returns acts :
  acts ≠ [] →
  ∃ r, calculate_cpm acts = (inr r, activities r) ∧
       py_max (early_finish <$> forward_pass acts) = inr (project_duration r) ∧
       activities r = backward_pass (project_duration r) (forward_pass acts) ∧
       critical_path r = id <$> filter (λ a, is_critical a = true) (activities r).
Proof.
  intros Hne. unfold calculate_cpm.
  destruct (early_finish <$> forward_pass acts) as [|x xs] eqn:E.
  - apply (f_equal length) in E. rewrite length_fmap, forward_pass_upto in E.
    rewrite <-(length_fmap inputs), forward_upto_inputs, length_fmap in E.
    destruct acts; [done|discriminate].
  - simpl. eexists (CpmResult _ _ _ _). split; [reflexivity|]. done.
Qed.

(** What [calculate_cpm] leaves at position [i]: the activity that was there,
    with the early times of the forward iteration [i] and the late times of
    the backward iteration [i]. *)
Lemma calculate_cpm_lookup acts r i a :
  fst (calculate_cpm acts) = inr r → acts !! i = Some a →
  ∃ es lf, activities r !! i = Some (set_late (set_early a es) lf) ∧
    es = forward_early_start (forward_upto acts i) a ∧
    lf = backward_late_finish (project_duration r)
           (backward_downto (project_duration r) (forward_pass acts) (S i))
           (set_early a es).
Proof.
  intros Hr Ha. unfold calculate_cpm in Hr.
  destruct (py_max _) as [e|pd]; simpl in Hr; [done|].
  injection Hr as <-. simpl.
  eexists _, _. split; [|done].
  apply backward_pass_lookup. by apply forward_pass_lookup.
Qed.

(** C6: after [calculate_cpm] on a non-empty collection every activity has
    [early_finish = early_start + duration],
    [late_start = late_finish - duration], [slack = late_start - early_start]
    and [is_critical] exactly when the slack is 0; the activities are the
    added ones, in insertion order, and [critical_path] lists the ids of
    those with slack 0 in that order. *)
Theorem calculate_cpm_consistent acts :
  acts ≠ [] →
  ∃ r, calculate_cpm acts = (inr r, activities r) ∧
       inputs <$> activities r = inputs <$> acts ∧
       Forall consistent (activities r) ∧
       critical_path r = id <$> filter (λ a, slack a = 0) (activities r).
Proof.
  intros Hne. destruct (calculate_cpm_returns acts Hne) as (r & Hr & _ & Hacts & Hcp).
  exists r. split; [done|].
  assert (Hin : inputs <$> activities r = inputs <$> acts).
  { by rewrite Hacts, backward_pass_downto, backward_downto_inputs,
      forward_pass_upto, forward_upto_inputs. }
  assert (Hall : Forall consistent (activities r)).
  { apply Forall_lookup. intros i b Hb.
    destruct (same_inputs_lookup _ _ i b Hin Hb) as (a & Ha & _).
    destruct (calculate_cpm_lookup acts r i a) as (es & lf & Hb' & _); [by rewrite Hr|done|].
    rewrite Hb in Hb'. injection Hb' as ->.
    unfold consistent. simpl. rewrite bool_decide_eq_true. repeat split; lia. }
  split; [done|]. split; [done|].
  rewrite Hcp. f_equal. apply filter_iff_Forall.
  eapply Forall_impl; [exact Hall|]. intros a (_ & _ & _ & Hc). done.
Qed.

Lemma calculate_cpm_consistent_witness :
  chain_example ≠ [] ∧
  ∃ r, calculate_cpm chain_example = (inr r, activities r) ∧
       inputs <$> activities r = inputs <$> chain_example ∧
       Forall consistent (activities r) ∧
       critical_path r = id <$> filter (λ a, slack a = 0) (activities r).
Proof.
  assert (H : chain_example ≠ []) by discriminate.
  split; [exact H|]. exact (calculate_cpm_consistent chain_example H).
Defined.

(** C10: on every non-empty collection, cyclic or not, [calculate_cpm]
    comes back with a result: each loop runs once per activity and leaves
    the number of activities and what the caller supplied untouched. *)
Theorem calculate_cpm_terminates acts :
  acts ≠ [] →
  ∃ r, calculate_cpm acts = (inr r, activities r) ∧
       length (activities r) = length acts ∧
       inputs <$> activities r = inputs <$> acts.
Proof.
  intros Hne. destruct (calculate_cpm_returns acts Hne) as (r & Hr & _ & Hacts & _).
  exists r. split; [done|].
  assert (Hin : inputs <$> activities r = inputs <$> acts).
  { by rewrite Hacts, backward_pass_downto, backward_downto_inputs,
      forward_pass_upto, forward_upto_inputs. }
  split; [|done]. by apply same_inputs_length.
Qed.

Lemma calculate_cpm_terminates_witness :
  cyclic_example ≠ [] ∧
  ∃ r, calculate_cpm cyclic_example = (inr r, activities r) ∧
       length (activities r) = length cyclic_example ∧
       inputs <$> activities r = inputs <$> cyclic_example.
Proof.
  assert (H : cyclic_example ≠ []) by discriminate.
  split; [exact H|]. exact (calculate_cpm_terminates cyclic_example H).
Defined.

(** C2, as the code has it: with no activity added, [calculate_cpm] raises
    the [ValueError] of [max()] on an empty sequence and leaves the engine
    empty. *)
Theorem calculate_cpm_empty :
  calculate_cpm [] = (inl (ValueError "max() arg is an empty sequence"), []).
Proof. reflexivity. Qed.

(** C2 as stated fails: no well-formed empty result comes back. *)
Lemma calculate_cpm_empty_no_result :
  ¬ ∃ r, fst (calculate_cpm []) = inr r ∧ activities r = [] ∧
         project_duration r = 0 ∧ critical_path r = [].
Proof. intros (r & Hr & _). discriminate Hr. Qed.

(** C1, as the code has it: on a non-empty collection with unique ids and
    durations that are not negative, in which every predecessor was added
    before its dependents, [calculate_cpm] returns the activities that were
    added, in their order and with the fields they were added with, and
    gives each of them the early start that is the maximum of the early
    finishes of the activities its predecessor list names (0 when it names
    none), [early_finish = early_start + duration], the early start of the
    recursive reference definition, and a [project_duration] that is the
    maximum early finish. Such an order leaves no cycle
    ([insertion_ordered_acyclic]). *)
Theorem calculate_cpm_early_times acts :
  acts ≠ [] → NoDup (id <$> acts) → Forall (λ a, 0 ≤ duration a) acts →
  insertion_ordered acts →
  ∃ r, calculate_cpm acts = (inr r, activities r) ∧
    inputs <$> activities r = inputs <$> acts ∧
    Forall (λ a,
      is_max_or 0
        (early_finish <$> filter (λ b, id b ∈ predecessors a) (activities r))
        (early_start a) ∧
      early_finish a = early_start a + duration a ∧
      early_start a = reference_early_start (length acts) acts a)
      (activities r) ∧
    project_duration r ∈ early_finish <$> activities r ∧
    Forall (λ x, x ≤ project_duration r) (early_finish <$> activities r).
Proof.
  intros Hne Hnodup Hdur Hord.
  destruct (calculate_cpm_returns acts Hne) as (r & Hr & Hpd & Hacts & _).
  exists r. split; [done|].
  pose proof (backward_pass_early (project_duration r) (forward_pass acts)) as Hearly.
  rewrite <-Hacts in Hearly.
  assert (Hin : inputs <$> activities r = inputs <$> acts).
  { rewrite <-(forward_pass_inputs acts). symmetry. apply fmap_Forall2.
    eapply Forall2_impl; [exact Hearly|]. by intros a b (-> & _). }
  assert (Hef : early_finish <$> forward_pass acts = early_finish <$> activities r).
  { apply fmap_Forall2. eapply Forall2_impl; [exact Hearly|]. by intros a b (_ & _ & ->). }
  (* the equations of the forward pass, read on the returned activities *)
  assert (Heq : ∀ i a, activities r !! i = Some a →
            is_max_or 0
              (early_finish <$> filter (λ b, id b ∈ predecessors a) (activities r))
              (early_start a) ∧
            early_finish a = early_start a + duration a).
  { intros i a Ha.
    destruct (Forall2_lookup_r _ _ _ i a Hearly Ha) as (a1 & Ha1 & Ein & Ees & Eef).
    destruct (forward_pass_early_start acts i a1 Hnodup Hdur Hord Ha1) as [Hmax Hfin].
    rewrite Ees, Eef, (inputs_duration _ _ Ein), (inputs_predecessors _ _ Ein).
    split; [|done].
    replace (early_finish <$> filter (λ b, id b ∈ predecessors a1) (activities r))
      with (early_finish <$> filter (λ b, id b ∈ predecessors a1) (forward_pass acts));
      [done|].
    apply fmap_filter_Forall2. eapply Forall2_impl; [exact Hearly|].
    intros b b' (Eb & _ & Eb'). rewrite (inputs_id _ _ Eb). by split. }
  split; [done|]. split; [|split].
  - (* by induction on the position, the reference definition agrees *)
    assert (Href : ∀ i a fuel, activities r !! i = Some a → (i < fuel)%nat →
              reference_early_start fuel acts a = early_start a).
    { intros i. induction i as [i IH] using lt_wf_ind. intros a fuel Ha Hfuel.
      destruct fuel as [|fuel]; [lia|]. simpl.
      destruct (Heq i a Ha) as [Hmax _].
      eapply is_max_or_unique; [apply list_max_or_is_max|].
      replace ((λ b, reference_early_start fuel acts b + duration b)
                 <$> filter (λ b, id b ∈ predecessors a) acts)
        with (early_finish <$> filter (λ b, id b ∈ predecessors a) (activities r));
        [done|].
      symmetry. apply fmap_filter_Forall2. apply Forall2_same_length_lookup_2.
      { symmetry. by apply same_inputs_length. }
      intros j b0 b Hb0 Hb.
      destruct (same_inputs_lookup _ _ j b Hin Hb) as (b0' & Hb0' & Eb).
      assert (b0' = b0) as -> by congruence.
      rewrite (inputs_id _ _ Eb). split; [done|]. intros Hp.
      assert (Hji : (j < i)%nat).
      { by apply (insertion_ordered_same_inputs _ _ Hin Hord i j a b Ha Hb). }
      rewrite (reference_early_start_predecessors fuel acts b0 b)
        by (by rewrite (inputs_predecessors _ _ Eb)).
      rewrite (IH j Hji b fuel Hb) by lia.
      destruct (Heq j b Hb) as [_ ->]. by rewrite (inputs_duration _ _ Eb). }
    apply Forall_lookup. intros i a Ha. destruct (Heq i a Ha) as [Hmax Hfin].
    split; [done|]. split; [done|]. symmetry. apply (Href i); [done|].
    rewrite <-(same_inputs_length _ _ Hin). by eapply lookup_lt_Some.
  - rewrite <-Hef. destruct (early_finish <$> forward_pass acts) as [|x xs]; [done|].
    injection Hpd as <-. apply foldl_max_elem.
  - rewrite <-Hef. destruct (early_finish <$> forward_pass acts) as [|x xs]; [done|].
    injection Hpd as <-. constructor; [apply foldl_max_ge|apply foldl_max_upper].
Qed.

Lemma calculate_cpm_early_times_witness :
  parallel_example ≠ [] ∧ NoDup (id <$> parallel_example) ∧
  Forall (λ a, 0 ≤ duration a) parallel_example ∧
  insertion_ordered parallel_example ∧
  ∃ r, calculate_cpm parallel_example = (inr r, activities r) ∧
    inputs <$> activities r = inputs <$> parallel_example ∧
    Forall (λ a,
      is_max_or 0
        (early_finish <$> filter (λ b, id b ∈ predecessors a) (activities r))
        (early_start a) ∧
      early_finish a = early_start a + duration a ∧
      early_start a
      = reference_early_start (length parallel_example) parallel_example a)
      (activities r) ∧
    project_duration r ∈ early_finish <$> activities r ∧
    Forall (λ x, x ≤ project_duration r) (early_finish <$> activities r).
Proof.
  assert (H1 : parallel_example ≠ []) by discriminate.
  assert (H2 : NoDup (id <$> parallel_example))
    by (apply (bool_decide_unpack _); vm_compute; exact I).
  assert (H3 : Forall (λ a, 0 ≤ duration a) parallel_example)
    by (apply (bool_decide_unpack _); vm_compute; exact I).
  assert (H4 : insertion_ordered parallel_example)
    by (apply insertion_ordered_check_sound; reflexivity).
  exact (conj H1 (conj H2 (conj H3 (conj H4
           (calculate_cpm_early_times parallel_example H1 H2 H3 H4))))).
Defined.

(** C1 as stated fails. With two activities under the id 1, of 3 and of 7
    days, the lookup stops at the first one: B, which names the id 1,
    starts at 3 where the maximum of the early finishes of the activities
    named is 7. With a duration of -5 the maximum is taken from 0 on: B
    starts at 0 where the only activity it names finishes at -5. Both
    collections are added in dependency order and have no cycle. *)
Lemma calculate_cpm_early_times_fails :
  (duplicate_id_example ≠ [] ∧ insertion_ordered duplicate_id_example ∧
   ¬ has_cycle duplicate_id_example ∧
   ∃ r b, fst (calculate_cpm duplicate_id_example) = inr r ∧
     activities r !! 2%nat = Some b ∧
     early_finish <$> filter (λ c, id c ∈ predecessors b) (activities r)
     = [3; 7] ∧
     early_start b = 3 ∧
     ¬ is_max_or 0
         (early_finish <$> filter (λ c, id c ∈ predecessors b) (activities r))
         (early_start b)) ∧
  (negative_duration_example ≠ [] ∧
   insertion_ordered negative_duration_example ∧
   ¬ has_cycle negative_duration_example ∧
   ∃ r b, fst (calculate_cpm negative_duration_example) = inr r ∧
     activities r !! 1%nat = Some b ∧
     early_finish <$> filter (λ c, id c ∈ predecessors b) (activities r)
     = [-5] ∧
     early_start b = 0 ∧
     ¬ is_max_or 0
         (early_finish <$> filter (λ c, id c ∈ predecessors b) (activities r))
         (early_start b)).
Proof.
  assert (H1 : insertion_ordered duplicate_id_example)
    by (apply insertion_ordered_check_sound; reflexivity).
  assert (H2 : insertion_ordered negative_duration_example)
    by (apply insertion_ordered_check_sound; reflexivity).
  split.
  - split; [discriminate|]. split; [done|].
    split; [by apply insertion_ordered_acyclic|].
    eexists _, _. split; [vm_compute; reflexivity|].
    split; [vm_compute; reflexivity|].
    split; [by vm_compute|]. split; [by vm_compute|].
    vm_compute. intros [_ H]. inversion H as [|? ? _ H'].
    inversion H' as [|? ? H7 _]. by apply H7.
  - split; [discriminate|]. split; [done|].
    split; [by apply insertion_ordered_acyclic|].
    eexists _, _. split; [vm_compute; reflexivity|].
    split; [vm_compute; reflexivity|].
    split; [by vm_compute|]. split; [by vm_compute|].
    vm_compute. intros [H _]. inversion H as [|? ? ? H']. inversion H'.
Qed.

(** The linear chain of the specification: duration 9, every activity
    critical. *)
Example calculate_cpm_chain_example :
  ∃ r, calculate_cpm chain_example = (inr r, activities r) ∧
       project_duration r = 9 ∧ critical_path r = [1; 2; 3] ∧
       slack <$> activities r = [0; 0; 0].
Proof. eexists (CpmResult _ _ _ _). by vm_compute. Qed.

(** A single activity without predecessors is critical and finishes, early
    and late, at its duration. *)
Example calculate_cpm_isolated activity_id nm dur :
  ∃ r a, calculate_cpm (add_activity activity_id nm dur None []) = (inr r, [a]) ∧
         activities r = [a] ∧ project_duration r = dur ∧
         slack a = 0 ∧ is_critical a = true ∧
         early_finish a = dur ∧ late_finish a = dur.
Proof.
  cbv [calculate_cpm add_activity forward_pass forward_step forward_early_start
       backward_pass backward_step backward_late_finish successors set_early
       set_late py_max]. cbn.
  destruct (decide (activity_id ∈ [])) as [[]%elem_of_nil|_].
  destruct (decide (@nil Z = [])); cbn;
    (eexists (CpmResult _ _ _ _), _; split; [reflexivity|]; cbn;
     rewrite bool_decide_eq_true; repeat split; lia).
Qed.

(** The parallel paths of the specification: A 0-3, B 3-8, C 3-5, D 8-9,
    duration 9, C with slack 3. *)
Example calculate_cpm_parallel_example :
  ∃ r, calculate_cpm parallel_example = (inr r, activities r) ∧
       project_duration r = 9 ∧ critical_path r = [1; 2; 4] ∧
       (λ a, (early_start a, early_finish a, slack a)) <$> activities r
       = [(0, 3, 0); (3, 8, 0); (3, 5, 3); (8, 9, 0)].
Proof. eexists (CpmResult _ _ _ _). by vm_compute. Qed.

(** C3, as the code has it: a cycle in the predecessor relation is not
    looked for; [calculate_cpm] runs both passes and returns their result. *)
Theorem calculate_cpm_ignores_cycles acts :
  has_cycle acts →
  ∃ r, calculate_cpm acts = (inr r, activities r) ∧
       activities r = backward_pass (project_duration r) (forward_pass acts).
Proof.
  intros Hne%has_cycle_nonempty.
  destruct (calculate_cpm_returns acts Hne) as (r & Hr & _ & Hacts & _). eauto.
Qed.

Lemma cyclic_example_has_cycle : has_cycle cyclic_example.
Proof.
  exists (Activity 3 "C" 1 [3] 0 0 0 0 0 false). apply tc_once.
  unfold depends_on, cyclic_example, add_activity. simpl.
  split; [|split]; repeat first [apply list_elem_of_here | apply list_elem_of_further].
Qed.

Lemma calculate_cpm_ignores_cycles_witness :
  has_cycle cyclic_example ∧
  ∃ r, calculate_cpm cyclic_example = (inr r, activities r) ∧
       activities r
       = backward_pass (project_duration r) (forward_pass cyclic_example).
Proof.
  exact (conj cyclic_example_has_cycle
           (calculate_cpm_ignores_cycles cyclic_example cyclic_example_has_cycle)).
Defined.

(** C3 as stated fails: on a collection with a cycle a result comes back. *)
Lemma calculate_cpm_cycle_not_detected :
  has_cycle cyclic_example ∧
  ∃ r, fst (calculate_cpm cyclic_example) = inr r ∧ project_duration r = 5.
Proof.
  split; [apply cyclic_example_has_cycle|].
  eexists (CpmResult _ _ _ _). by vm_compute.
Qed.

(** C4, as the code has it: on a collection in which every predecessor was
    added before its dependents, a second [calculate_cpm] gives the same
    outcome and leaves the same computed fields as the first. *)
Theorem calculate_cpm_idempotent acts :
  insertion_ordered acts →
  calculate_cpm (snd (calculate_cpm acts)) = calculate_cpm acts.
Proof.
  intros Hord. apply calculate_cpm_inputs_only; [done|].
  apply calculate_cpm_state_inputs.
Qed.

Lemma calculate_cpm_idempotent_witness :
  insertion_ordered parallel_example ∧
  calculate_cpm (snd (calculate_cpm parallel_example))
  = calculate_cpm parallel_example.
Proof.
  assert (H : insertion_ordered parallel_example)
    by (apply insertion_ordered_check_sound; reflexivity).
  exact (conj H (calculate_cpm_idempotent parallel_example H)).
Defined.

(** C4 as stated fails: with A added before its predecessor B, the second
    call reads the finish time the first call left in B; the project
    duration goes from 3 to 5 and the early times of A change. *)
Lemma calculate_cpm_not_idempotent :
  let first := calculate_cpm out_of_order_example in
  let second := calculate_cpm (snd first) in
  (∃ r1 r2, fst first = inr r1 ∧ fst second = inr r2 ∧
            project_duration r1 = 3 ∧ project_duration r2 = 5) ∧
  computed <$> snd first ≠ computed <$> snd second.
Proof.
  split; [eexists (CpmResult _ _ _ _), (CpmResult _ _ _ _); by vm_compute|].
  by vm_compute.
Qed.

(** C5: a predecessor id that matches no activity raises nothing and counts
    for nothing: the computed fields, the project duration and the critical
    path are those of the collection with such ids removed from every
    predecessor list, and an activity that names only such ids starts
    at 0. *)
Theorem calculate_cpm_dangling acts :
  has_dangling acts →
  ∃ r r',
    calculate_cpm acts = (inr r, activities r) ∧
    calculate_cpm (without_dangling acts) = (inr r', activities r') ∧
    activities r' = restrict_predecessors (id <$> acts) <$> activities r ∧
    computed <$> activities r' = computed <$> activities r ∧
    project_duration r' = project_duration r ∧
    critical_path r' = critical_path r ∧
    Forall (λ a, Forall (dangling acts) (predecessors a) → early_start a = 0)
      (activities r).
Proof.
  intros (a0 & p0 & Ha0 & _ & _).
  assert (Hne : acts ≠ []) by (intros ->; by apply elem_of_nil in Ha0).
  destruct (calculate_cpm_returns acts Hne) as (r & Hr & Hpd & Hacts & Hcp).
  set (ids := id <$> acts). set (R := restrict_predecessors ids).
  assert (Hfw : forward_pass (without_dangling acts) = R <$> forward_pass acts).
  { unfold without_dangling. rewrite !forward_pass_upto, length_fmap.
    by apply forward_upto_restrict. }
  assert (Hef : ∀ l : list activity, early_finish <$> (R <$> l) = early_finish <$> l).
  { intros l. by rewrite <-list_fmap_compose. }
  assert (Hbw : backward_pass (project_duration r) (R <$> forward_pass acts)
                = R <$> activities r).
  { rewrite Hacts, !backward_pass_downto. apply backward_downto_restrict.
    unfold ids. by rewrite (same_inputs_ids _ _ (forward_pass_inputs acts)). }
  assert (Hcrit : ∀ l : list activity,
            R <$> filter (λ a, is_critical a = true) l
            = filter (λ a, is_critical a = true) (R <$> l)).
  { intros l. induction l as [|a l IH]; [done|].
    rewrite fmap_cons, !filter_cons. simpl.
    destruct (decide (is_critical a = true)); rewrite ?fmap_cons; by rewrite IH. }
  exists r, (CpmResult (R <$> activities r) (project_duration r)
               (id <$> filter (λ a, is_critical a = true) (R <$> activities r))
               (filter (λ a, is_critical a = true) (R <$> activities r))).
  simpl. split; [done|]. split.
  { unfold calculate_cpm. rewrite Hfw, Hef, Hpd. simpl. by rewrite Hbw. }
  split; [done|]. split; [by rewrite <-list_fmap_compose|].
  split; [done|]. split.
  { rewrite Hcp, <-Hcrit. by rewrite <-list_fmap_compose. }
  apply Forall_lookup. intros i a Ha Hdang.
  assert (Hin : inputs <$> activities r = inputs <$> acts).
  { by rewrite Hacts, backward_pass_downto, backward_downto_inputs,
      forward_pass_inputs. }
  destruct (same_inputs_lookup _ _ i a Hin Ha) as (a' & Ha' & Ein).
  destruct (calculate_cpm_lookup acts r i a') as (es & lf & Hlook & Hes & _);
    [by rewrite Hr|done|].
  rewrite Ha in Hlook. injection Hlook as ->. simpl.
  rewrite Hes, forward_early_start_max_finish.
  destruct (max_finish_bounds (forward_upto acts i) (predecessors a'))
    as (_ & _ & [Hz|(p & b & Hp & Hfind & _)]); [done|exfalso].
  simpl in Hdang. rewrite Forall_forall in Hdang. apply (Hdang p Hp).
  unfold dangling. rewrite <-(same_inputs_ids _ _ (forward_upto_inputs acts i)).
  apply find_activity_Some in Hfind as (j & Hj & <- & _).
  apply list_elem_of_fmap. exists b. split; [done|]. by eapply list_elem_of_lookup_2.
Qed.

Lemma dangling_example_has_dangling : has_dangling dangling_example.
Proof.
  exists (Activity 2 "B" 2 [99; 1] 0 0 0 0 0 false), 99.
  unfold dangling, dangling_example, add_activity. simpl.
  split; [|split].
  - apply list_elem_of_further, list_elem_of_here.
  - apply list_elem_of_here.
  - apply (bool_decide_unpack _). by vm_compute.
Qed.

Lemma calculate_cpm_dangling_witness :
  has_dangling dangling_example ∧
  ∃ r r',
    calculate_cpm dangling_example = (inr r, activities r) ∧
    calculate_cpm (without_dangling dangling_example) = (inr r', activities r') ∧
    activities r'
    = restrict_predecessors (id <$> dangling_example) <$> activities r ∧
    computed <$> activities r' = computed <$> activities r ∧
    project_duration r' = project_duration r ∧
    critical_path r' = critical_path r ∧
    Forall (λ a, Forall (dangling dangling_example) (predecessors a) →
                 early_start a = 0)
      (activities r).
Proof.
  exact (conj dangling_example_has_dangling
           (calculate_cpm_dangling dangling_example dangling_example_has_dangling)).
Defined.

(** *** The Gantt projection *)

(** The loop appends one record per activity, in order. *)
Lemma gantt_loop_entries start todo acc g :
  gantt_loop start todo acc = inr g →
  ∃ entries, g = acc ++ entries ∧
             Forall2 (λ a e, gantt_entry start a = inr e) todo entries.
Proof.
  revert acc. induction todo as [|a rest IH]; intros acc; simpl.
  - intros [= <-]. exists []. by rewrite app_nil_r.
  - destruct (gantt_entry start a) as [err|e] eqn:E; simpl; [done|].
    intros (entries & -> & Hrest)%IH. exists (e :: entries).
    split; [by rewrite <-app_assoc|]. by constructor.
Qed.

Lemma gantt_entry_shifted d1 d2 a e1 e2 :
  gantt_entry d1 a = inr e1 → gantt_entry d2 a = inr e2 →
  shifted (d2 - d1) e1 e2.
Proof.
  unfold gantt_entry.
  destruct (date_add d1 (early_start a)) as [|s1] eqn:Es1; simpl; [done|].
  destruct (date_add d1 (early_finish a)) as [|f1] eqn:Ef1; simpl; [done|].
  destruct (date_add d2 (early_start a)) as [|s2] eqn:Es2; simpl; [done|].
  destruct (date_add d2 (early_finish a)) as [|f2] eqn:Ef2; simpl; [done|].
  intros [= <-] [= <-]. unfold shifted. simpl.
  apply date_add_inr in Es1, Ef1, Es2, Ef2. subst.
  split; [|done]. exists (d1 + early_start a), (d1 + early_finish a).
  repeat split; f_equal; lia.
Qed.

Lemma gantt_entry_projects start a e :
  gantt_entry start a = inr e → projects start a e.
Proof.
  unfold gantt_entry.
  destruct (date_add start (early_start a)) as [|s] eqn:Es; simpl; [done|].
  destruct (date_add start (early_finish a)) as [|f] eqn:Ef; simpl; [done|].
  intros [= <-]. apply date_add_inr in Es, Ef. subst. by unfold projects.
Qed.

(** [generate_gantt_data] returns whenever every date is on the calendar. *)
Lemma gantt_loop_returns start todo acc :
  Forall (on_calendar start) todo →
  ∃ entries, gantt_loop start todo acc = inr (acc ++ entries) ∧
             length entries = length todo.
Proof.
  intros H. revert acc. induction H as [|a rest (Hs & He & Hd) _ IH]; intros acc; simpl.
  - exists []. by rewrite app_nil_r.
  - unfold gantt_entry.
    rewrite (date_add_in_range start (early_start a)) by done.
    rewrite (date_add_in_range start (early_finish a)) by done. simpl.
    match goal with |- context [acc ++ [?e]] =>
      destruct (IH (acc ++ [e])) as (entries & -> & Hlen); exists (e :: entries)
    end.
    rewrite <-app_assoc. split; [done|]. simpl. by rewrite Hlen.
Qed.

Lemma generate_gantt_data_returns start acts :
  Forall (on_calendar start) acts →
  ∃ g, fst (generate_gantt_data start acts) = inr g ∧ length g = length acts.
Proof.
  intros H. destruct (gantt_loop_returns start acts [] H) as (g & Hg & Hlen).
  exists g. by split.
Qed.

(** C7: [generate_gantt_data] leaves the activity list as it is; each
    record it returns carries the dates [start + early_start] and
    [start + early_finish] of its activity and copies the other fields; the
    records returned for two start dates differ by the shift of both dates
    by [d2 - d1] days and by nothing else. *)
Theorem generate_gantt_data_reanchor acts :
  (∀ d, snd (generate_gantt_data d acts) = acts) ∧
  (∀ d g, fst (generate_gantt_data d acts) = inr g →
     Forall2 (projects d) acts g) ∧
  (∀ d1 d2 g1 g2,
     fst (generate_gantt_data d1 acts) = inr g1 →
     fst (generate_gantt_data d2 acts) = inr g2 →
     Forall2 (shifted (d2 - d1)) g1 g2).
Proof.
  split; [done|]. unfold generate_gantt_data. simpl. split.
  - intros d g (e & -> & H)%gantt_loop_entries. simpl.
    eapply Forall2_impl; [exact H|]. apply gantt_entry_projects.
  - intros d1 d2 g1 g2 H1 H2.
    apply gantt_loop_entries in H1 as (e1 & -> & H1).
    apply gantt_loop_entries in H2 as (e2 & -> & H2). simpl.
    revert e2 H2. induction H1 as [|a e1 rest es1 Ha _ IH]; intros e2 H2.
    + inversion H2. constructor.
    + inversion H2 as [|a' e2' rest' es2 Ha' Hrest']; subst.
      constructor; [by eapply gantt_entry_shifted|by apply IH].
Qed.

Lemma generate_gantt_data_reanchor_witness :
  let acts := snd (calculate_cpm parallel_example) in
  ∃ g1 g2,
    fst (generate_gantt_data 738886 acts) = inr g1 ∧
    fst (generate_gantt_data 738917 acts) = inr g2 ∧
    start_date <$> g1 = ["2024-01-01"; "2024-01-04"; "2024-01-04"; "2024-01-09"] ∧
    start_date <$> g2 = ["2024-02-01"; "2024-02-04"; "2024-02-04"; "2024-02-09"] ∧
    Forall2 (shifted (738917 - 738886)) g1 g2.
Proof.
  intros acts.
  assert (H1 : ∃ g1, fst (generate_gantt_data 738886 acts) = inr g1 ∧
            start_date <$> g1
            = ["2024-01-01"; "2024-01-04"; "2024-01-04"; "2024-01-09"])
    by (eexists; split; vm_compute; reflexivity).
  assert (H2 : ∃ g2, fst (generate_gantt_data 738917 acts) = inr g2 ∧
            start_date <$> g2
            = ["2024-02-01"; "2024-02-04"; "2024-02-04"; "2024-02-09"])
    by (eexists; split; vm_compute; reflexivity).
  destruct H1 as (g1 & H1 & D1), H2 as (g2 & H2 & D2). exists g1, g2.
  split; [exact H1|]. split; [exact H2|]. split; [exact D1|]. split; [exact D2|].
  exact (proj2 (proj2 (generate_gantt_data_reanchor acts)) 738886 738917 g1 g2 H1 H2).
Defined.

End ScheduleTheorems.

(** ** Rounding *)

Lemma round_half_even_cases x :
  (inject_Z (Qfloor x) <= x < inject_Z (Qfloor x) + 1)%Q ∧
  ((x - inject_Z (Qfloor x) < 1 # 2)%Q ∧ round_half_even x = Qfloor x ∨
   (1 # 2 < x - inject_Z (Qfloor x))%Q ∧ round_half_even x = Qfloor x + 1 ∨
   (x - inject_Z (Qfloor x) == 1 # 2)%Q ∧
     round_half_even x = (if Z.even (Qfloor x) then Qfloor x else Qfloor x + 1)).
Proof.
  split.
  - split; [apply Qfloor_le|]. pose proof (Qlt_floor x) as H.
    rewrite inject_Z_plus in H. exact H.
  - unfold round_half_even.
    destruct (Qcompare_spec (x - inject_Z (Qfloor x)) (1 # 2)); auto.
Qed.

Global Instance round_half_even_proper : Proper (Qeq ==> eq) round_half_even.
Proof.
  intros x y E. unfold round_half_even. rewrite (Qfloor_comp x y E).
  assert ((x - inject_Z (Qfloor y) ?= 1 # 2)%Q
          = (y - inject_Z (Qfloor y) ?= 1 # 2)%Q) as ->; [|done].
  apply Qcompare_comp; [by rewrite E|reflexivity].
Qed.

Lemma round_half_even_mono x y : (x <= y)%Q → round_half_even x ≤ round_half_even y.
Proof.
  intros Hxy. pose proof (Qfloor_resp_le x y Hxy) as Hf.
  destruct (round_half_even_cases x) as [Hx Cx].
  destruct (round_half_even_cases y) as [Hy Cy].
  destruct (decide (Qfloor x = Qfloor y)) as [E|NE].
  - rewrite E in *.
    destruct Cx as [[Hrx ->]|[[Hrx ->]|[Hrx ->]]],
             Cy as [[Hry ->]|[[Hry ->]|[Hry ->]]];
      try lia; try (exfalso; lra); destruct (Z.even (Qfloor y)); lia.
  - assert (Qfloor x + 1 ≤ Qfloor y) by lia.
    destruct Cx as [[_ ->]|[[_ ->]|[_ ->]]], Cy as [[_ ->]|[[_ ->]|[_ ->]]];
      repeat match goal with |- context [Z.even ?z] => destruct (Z.even z) end; lia.
Qed.

Lemma round_half_even_Z n : round_half_even (inject_Z n) = n.
Proof.
  destruct (round_half_even_cases (inject_Z n)) as [_ C].
  rewrite Qfloor_Z in C.
  destruct C as [[_ ->]|[[H _]|[H _]]]; [done|exfalso; lra..].
Qed.


Lemma pow10_pos n : (0 < pow10 n)%Q.
Proof.
  unfold pow10. change 0%Q with (inject_Z 0). rewrite <-Zlt_Qlt.
  apply Z.pow_pos_nonneg; lia.
Qed.

Global Instance py_round_proper : Proper (Qeq ==> eq ==> Qeq) py_round.
Proof. intros x y E n ? <-. unfold py_round. by rewrite E. Qed.

Lemma py_round_mono x y n : (x <= y)%Q → (py_round x n <= py_round y n)%Q.
Proof.
  intros Hxy. unfold py_round. pose proof (pow10_pos n) as Hp.
  apply Qmult_le_compat_r; [|apply Qlt_le_weak, Qinv_lt_0_compat, Hp].
  rewrite <-Zle_Qle. apply round_half_even_mono.
  apply Qmult_le_compat_r; [done|by apply Qlt_le_weak].
Qed.

(** A value that already is a multiple of [10^-n] is left as it is. *)
Lemma py_round_exact x n k :
  (x * pow10 n == inject_Z k)%Q → (py_round x n == x)%Q.
Proof.
  intros E. unfold py_round. pose proof (pow10_pos n) as Hp.
  rewrite E, round_half_even_Z, <-E. field. lra.
Qed.


(** ** The S-curve and the earned-value metrics *)

Module ProductivityFacts.
Import ProductivityCalculator.

(** *** Dicts *)

Lemma dict_get_None {V} (d : dict V) k : dict_get d k = None ↔ k ∉ dict_keys d.
Proof.
  induction d as [|[k' v] d IH]; simpl.
  - split; [intros _; apply not_elem_of_nil|done].
  - rewrite not_elem_of_cons. case_decide as E; [split; [done|tauto]|].
    rewrite IH. tauto.
Qed.

Lemma dict_get_set {V} (d : dict V) k v : dict_get (dict_set d k v) k = Some v.
Proof.
  induction d as [|[k' v'] d IH]; simpl.
  - by rewrite decide_True.
  - case_decide as E; simpl; [by rewrite decide_True|by rewrite decide_False].
Qed.

Lemma dict_keys_set {V} (d : dict V) k v :
  dict_keys (dict_set d k v)
  = if decide (k ∈ dict_keys d) then dict_keys d else dict_keys d ++ [k].
Proof.
  induction d as [|[k' v'] d IH]; simpl; [done|].
  destruct (decide (k = k')) as [->|E]; simpl.
  - by rewrite decide_True by apply list_elem_of_here.
  - rewrite IH. destruct (decide (k ∈ dict_keys d)) as [Hk|Hk].
    + by rewrite decide_True by (by apply list_elem_of_further).
    + rewrite decide_False; [done|]. rewrite not_elem_of_cons. done.
Qed.

Lemma dict_set_NoDup {V} (d : dict V) k v :
  NoDup (dict_keys d) → NoDup (dict_keys (dict_set d k v)).
Proof.
  intros H. rewrite dict_keys_set. case_decide as Hk; [done|].
  apply NoDup_app. split; [done|]. split; [|apply NoDup_singleton].
  intros x Hx ->%list_elem_of_singleton. done.
Qed.

Lemma dict_set_sum d k v :
  (dict_sum (dict_set d k v) == dict_sum d - today d k + v)%Q.
Proof.
  unfold dict_sum, today. induction d as [|[k' v'] d IH]; csimpl.
  - lra.
  - destruct (decide (k = k')); csimpl; [lra|]. rewrite IH. lra.
Qed.

Lemma dict_set_nonneg (d : dict Q) k v :
  (0 <= v)%Q → Forall (λ kv, (0 <= kv.2)%Q) d →
  Forall (λ kv, (0 <= kv.2)%Q) (dict_set d k v).
Proof.
  intros Hv. induction 1 as [|[k' v'] d Hv' Hd IH]; simpl.
  - by repeat constructor.
  - case_decide; by constructor.
Qed.

Lemma today_nonneg d k : Forall (λ kv, (0 <= kv.2)%Q) d → (0 <= today d k)%Q.
Proof.
  unfold today. induction 1 as [|[k' v'] d Hv' _ IH]; simpl; [done|].
  by case_decide.
Qed.



Lemma foldl_Qplus c l : (foldl Qplus c l == c + foldr Qplus 0 l)%Q.
Proof.
  revert c. induction l as [|x l IH]; intros c; simpl; [lra|].
  rewrite IH. lra.
Qed.

(** *** The accumulation of the daily costs *)

(** One day of one activity adds [per_day] to the dict. *)
Lemma add_day_ok per_day activity_start costs day :
  date_add activity_start day = inr (activity_start + day) →
  (0 <= per_day)%Q → well_formed costs →
  ∃ costs', add_day per_day activity_start (inr costs) day = inr costs' ∧
            well_formed costs' ∧
            (dict_sum costs' == dict_sum costs + per_day)%Q.
Proof.
  intros Hdate Hpd [Hnodup Hnn]. unfold add_day. simpl. rewrite Hdate. simpl.
  set (k := strftime_Ymd (activity_start + day)).
  eexists. split; [reflexivity|].
  destruct (dict_get costs k) as [v0|] eqn:E.
  - assert (Hv0 : today costs k = v0) by (unfold today; by rewrite E).
    pose proof (today_nonneg costs k Hnn) as Hv0nn. rewrite Hv0 in Hv0nn.
    rewrite E. simpl. split; [split|].
    + by apply dict_set_NoDup.
    + apply dict_set_nonneg; [|done]. simpl. lra.
    + rewrite dict_set_sum, Hv0. simpl. lra.
  - assert (Hk : today costs k = 0%Q) by (unfold today; by rewrite E).
    rewrite dict_get_set. simpl. split; [split|].
    + by do 2 apply dict_set_NoDup.
    + apply dict_set_nonneg; [lra|]. by apply dict_set_nonneg.
    + rewrite !dict_set_sum, Hk. unfold today. rewrite dict_get_set. simpl. lra.
Qed.

(** All the days of one activity. *)
Lemma add_days_ok per_day activity_start days costs :
  (∀ day, day ∈ days → date_add activity_start day = inr (activity_start + day)) →
  (0 <= per_day)%Q → well_formed costs →
  ∃ costs', foldl (add_day per_day activity_start) (inr costs) days = inr costs' ∧
            well_formed costs' ∧
            (dict_sum costs'
             == dict_sum costs + per_day * inject_Z (Z.of_nat (length days)))%Q.
Proof.
  intros Hdates Hpd. revert costs.
  induction days as [|day days IH]; intros costs Hwf.
  - exists costs. split; [done|]. split; [done|].
    change (inject_Z (Z.of_nat (length (@nil Z)))) with 0%Q. lra.
  - destruct (add_day_ok per_day activity_start costs day) as (c1 & E1 & Hwf1 & S1);
      [apply Hdates, list_elem_of_here|done..|].
    destruct (IH (λ d Hd, Hdates d (list_elem_of_further _ _ _ Hd)) c1 Hwf1)
      as (c2 & E2 & Hwf2 & S2).
    exists c2. split; [cbn [foldl]; by rewrite E1|]. split; [done|].
    rewrite S2, S1. rewrite length_cons, Nat2Z.inj_succ, <-Z.add_1_r, inject_Z_plus.
    change (inject_Z 1) with 1%Q. lra.
Qed.

(** One activity adds its cost to the dict. *)
Lemma add_activity_cost_ok start costs a :
  0 < start ≤ MAXORDINAL → priced a → within_calendar start a →
  well_formed costs →
  ∃ costs', add_activity_cost start (inr costs) a = inr costs' ∧
            well_formed costs' ∧
            (dict_sum costs' == dict_sum costs + default 0 (cost a))%Q.
Proof.
  intros Hstart (c & d & Hc & Hd & Hcpos & Hdpos) [Hlo Hhi] Hwf.
  rewrite Hd in Hhi. simpl in Hhi.
  set (es := default 0 (early_start a)) in *.
  unfold add_activity_cost, cost_per_day. simpl. rewrite Hc, Hd. simpl.
  rewrite decide_False by lia. simpl.
  fold es. rewrite (date_add_in_range start es) by lia. simpl.
  assert (Hpd : (0 <= c / inject_Z d)%Q).
  { apply Qlt_le_weak, Qlt_shift_div_l; [|lra].
    change 0%Q with (inject_Z 0). rewrite <-Zlt_Qlt. lia. }
  destruct (add_days_ok (c / inject_Z d) (start + es) (seqZ 0 d) costs)
    as (costs' & E & Hwf' & S); [|done..|].
  { intros day [Hday0 Hday1]%elem_of_seqZ. apply date_add_in_range; lia. }
  exists costs'. split; [done|]. split; [done|].
  rewrite S, length_seqZ, Z2Nat.id by lia.
  assert (Hdq : ¬ (inject_Z d == 0)%Q).
  { change 0%Q with (inject_Z 0). rewrite inject_Z_injective. lia. }
  assert (Hmul : (c / inject_Z d * inject_Z d == c)%Q) by (field; done).
  rewrite Hmul. reflexivity.
Qed.

(** The whole first loop of [calculate_s_curve]. *)
Lemma daily_costs_ok start acts costs :
  0 < start ≤ MAXORDINAL → Forall priced acts →
  Forall (within_calendar start) acts → well_formed costs →
  ∃ costs', foldl (add_activity_cost start) (inr costs) acts = inr costs' ∧
            well_formed costs' ∧
            (dict_sum costs'
             == dict_sum costs + foldr Qplus 0 (default 0%Q ∘ cost <$> acts))%Q.
Proof.
  intros Hstart Hpriced Hcal. revert costs.
  induction acts as [|a acts IH]; intros costs Hwf.
  - exists costs. split; [done|]. split; [done|]. simpl. lra.
  - apply Forall_cons in Hpriced as [Hp Hps]. apply Forall_cons in Hcal as [Hc Hcs].
    destruct (add_activity_cost_ok start costs a Hstart Hp Hc Hwf)
      as (c1 & E1 & Hwf1 & S1).
    destruct (IH Hps Hcs c1 Hwf1) as (c2 & E2 & Hwf2 & S2).
    exists c2. split; [cbn [foldl]; by rewrite E1|]. split; [done|].
    rewrite S2, S1, fmap_cons. simpl. lra.
Qed.

(** *** The cumulative series *)

Lemma accumulate_dates daily total dates cum acc :
  date <$> accumulate daily total dates cum acc = (date <$> acc) ++ dates.
Proof.
  revert cum acc. induction dates as [|k dates IH]; intros cum acc; simpl.
  - by rewrite app_nil_r.
  - rewrite IH, fmap_app. simpl. by rewrite <-app_assoc.
Qed.






End ProductivityFacts.

Module ProductivityTheorems.
Import ProductivityCalculator ProductivityFacts.



(** The series of the sample: 33.33, 66.67, 125 and 150 on four days. *)
Example calculate_s_curve_overlap_example :
  ∃ series, calculate_s_curve overlap_example 738886 = inr series ∧
    date <$> series = ["2024-01-01"; "2024-01-02"; "2024-01-03"; "2024-01-04"] ∧
    Qred <$> (cumulative_cost <$> series)
    = [(3333 # 100)%Q; (6667 # 100)%Q; 125%Q; 150%Q].
Proof. eexists. split; [by vm_compute|]. by vm_compute. Qed.





End ProductivityTheorems.

(** * Further properties of the code *)

(** ** Minima *)

Lemma foldl_min_le x xs : foldl Z.min x xs ≤ x.
Proof.
  revert x. induction xs as [|y ys IH]; intros x; simpl; [lia|].
  specialize (IH (Z.min x y)). lia.
Qed.

Lemma foldl_min_lower x xs : Forall (λ y, foldl Z.min x xs ≤ y) xs.
Proof.
  revert x. induction xs as [|y ys IH]; intros x; simpl; constructor.
  - pose proof (foldl_min_le (Z.min x y) ys). lia.
  - apply IH.
Qed.

Lemma foldl_min_elem x xs : foldl Z.min x xs ∈ x :: xs.
Proof.
  revert x. induction xs as [|y ys IH]; intros x; simpl; [apply list_elem_of_here|].
  specialize (IH (Z.min x y)). apply elem_of_cons in IH as [IH|IH].
  - rewrite IH. destruct (Z.min_spec x y) as [[_ ->]|[_ ->]].
    + apply list_elem_of_here.
    + apply list_elem_of_further, list_elem_of_here.
  - by do 2 apply list_elem_of_further.
Qed.

(** ** Late times, slack and the critical path *)

Module ScheduleMoreFacts.
Import ScheduleCalculator ScheduleFacts ScheduleTheorems.

(** The late finish is the minimum of the late starts it reads. *)
Lemma backward_late_finish_is_min pd t a :
  is_min_or pd (late_start <$> successors t a) (backward_late_finish pd t a).
Proof.
  unfold backward_late_finish. destruct (successors t a) as [|b rest]; [done|].
  rewrite fmap_cons. simpl. split; [apply foldl_min_elem|].
  constructor; [apply foldl_min_le|apply foldl_min_lower].
Qed.

(** The activities [calculate_cpm] returns, position by position. *)
Lemma calculate_cpm_activities acts r :
  fst (calculate_cpm acts) = inr r →
  inputs <$> activities r = inputs <$> acts ∧
  activities r = backward_pass (project_duration r) (forward_pass acts) ∧
  py_max (early_finish <$> forward_pass acts) = inr (project_duration r).
Proof.
  unfold calculate_cpm. destruct (py_max _) as [e|pd] eqn:E; simpl; [done|].
  intros [= <-]. simpl. split; [|done].
  by rewrite backward_pass_downto, backward_downto_inputs, forward_pass_inputs.
Qed.

(** In dependency order the successors read by the backward iteration [i]
    already hold their final late start. *)
Lemma late_finish_ordered acts r i a :
  insertion_ordered acts → fst (calculate_cpm acts) = inr r →
  activities r !! i = Some a →
  is_min_or (project_duration r)
    (late_start <$> successors (activities r) a) (late_finish a).
Proof.
  intros Hord Hr Ha. destruct (calculate_cpm_activities acts r Hr) as (Hin & Hacts & _).
  destruct (same_inputs_lookup _ _ i a Hin Ha) as (a0 & Ha0 & Ein).
  destruct (calculate_cpm_lookup acts r i a0 Hr Ha0) as (es & lf & Hlook & _ & Hlf).
  rewrite Ha in Hlook. injection Hlook as Ea.
  set (pd := project_duration r) in *.
  set (t := backward_downto pd (forward_pass acts) (S i)) in *.
  assert (Hlfa : late_finish a = lf) by (by rewrite Ea).
  rewrite Hlfa, Hlf.
  replace (late_start <$> successors (activities r) a)
    with (late_start <$> successors t (set_early a0 es));
    [apply backward_late_finish_is_min|].
  unfold successors. apply fmap_filter_Forall2.
  assert (Hint : inputs <$> t = inputs <$> acts).
  { unfold t. by rewrite backward_downto_inputs, forward_pass_inputs. }
  apply Forall2_same_length_lookup_2.
  { apply same_inputs_length. by rewrite Hint, Hin. }
  intros k b b' Hb Hb'.
  assert (Hida : id (set_early a0 es) = id a) by (by rewrite Ea).
  rewrite Hida.
  destruct (decide (i < k)%nat) as [Hik|Hik].
  - unfold t in Hb. rewrite backward_downto_lookup_ge in Hb by lia.
    rewrite Hacts, backward_pass_downto, backward_downto_lookup_ge in Hb' by lia.
    fold pd in Hb'. assert (b' = b) as -> by congruence. done.
  - destruct (same_inputs_lookup _ _ k b Hint Hb) as (b0 & Hb0 & Eb).
    destruct (same_inputs_lookup _ _ k b' Hin Hb') as (b0' & Hb0' & Eb').
    assert (b0' = b0) as -> by congruence.
    rewrite <-(inputs_predecessors _ _ Eb), <-(inputs_predecessors _ _ Eb').
    split; [done|]. intros Hsucc. exfalso.
    assert (id a0 = id a) as Hid by (by rewrite (inputs_id _ _ Ein)).
    rewrite <-Hid in Hsucc. specialize (Hord k i b0 a0 Hb0 Ha0 Hsucc). lia.
Qed.

(** What [calculate_cpm] leaves in one activity, read against the forward
    pass. *)
Lemma calculate_cpm_fields acts r i a :
  fst (calculate_cpm acts) = inr r → activities r !! i = Some a →
  ∃ b, forward_pass acts !! i = Some b ∧ inputs b = inputs a ∧
    early_start a = early_start b ∧ early_finish a = early_finish b ∧
    0 ≤ early_start a ∧ early_finish a = early_start a + duration a ∧
    early_finish a ≤ project_duration r ∧
    late_start a = late_finish a - duration a ∧
    slack a = late_finish a - early_finish a ∧
    is_critical a = bool_decide (slack a = 0).
Proof.
  intros Hr Ha. destruct (calculate_cpm_activities acts r Hr) as (Hin & Hacts & Hpd).
  destruct (same_inputs_lookup _ _ i a Hin Ha) as (a0 & Ha0 & Ein).
  pose proof (forward_pass_lookup acts i a0 Ha0) as Hb.
  exists (set_early a0 (forward_early_start (forward_upto acts i) a0)).
  rewrite Hacts, (backward_pass_lookup _ _ i _ Hb) in Ha. injection Ha as <-.
  simpl. split; [done|]. rewrite forward_early_start_max_finish.
  destruct (max_finish_bounds (forward_upto acts i) (predecessors a0)) as (Hge & _).
  repeat split; try done; try lia.
  - assert (Hel : early_finish
                    (set_early a0 (max_finish (forward_upto acts i) (predecessors a0)))
                  ∈ early_finish <$> forward_pass acts).
    { apply list_elem_of_fmap. eexists. split; [done|].
      apply list_elem_of_lookup. exists i.
      by rewrite Hb, forward_early_start_max_finish. }
    simpl in Hel. unfold py_max in Hpd.
    destruct (early_finish <$> forward_pass acts) as [|x xs]; [done|].
    injection Hpd as Hpd. rewrite <-Hpd. apply elem_of_cons in Hel as [->|Hel].
    + apply foldl_max_ge.
    + pose proof (foldl_max_upper x xs) as Hup. rewrite Forall_forall in Hup.
      by apply Hup.
Qed.

(** With unique ids and every predecessor added first, an activity does not
    start before the activities its predecessor list names have finished. *)
Lemma calculate_cpm_predecessor_le acts r i k a b :
  NoDup (id <$> acts) → insertion_ordered acts →
  fst (calculate_cpm acts) = inr r →
  activities r !! i = Some a → activities r !! k = Some b →
  id a ∈ predecessors b → early_finish a ≤ early_start b.
Proof.
  intros Hnodup Hord Hr Ha Hb Hpred.
  destruct (calculate_cpm_fields acts r i a Hr Ha)
    as (a' & Ha' & Eina & _ & -> & _).
  destruct (calculate_cpm_fields acts r k b Hr Hb)
    as (b' & Hb' & Einb & -> & _).
  pose proof (forward_pass_inputs acts) as Hin.
  destruct (same_inputs_lookup _ _ i a' Hin Ha') as (a0 & Ha0 & Ea0).
  destruct (same_inputs_lookup _ _ k b' Hin Hb') as (b0 & Hb0 & Eb0).
  assert (Hpred0 : id a0 ∈ predecessors b0).
  { rewrite (inputs_id _ _ Ea0), (inputs_id _ _ Eina).
    by rewrite (inputs_predecessors _ _ Eb0), (inputs_predecessors _ _ Einb). }
  pose proof (Hord k i b0 a0 Hb0 Ha0 Hpred0) as Hik.
  pose proof (lookup_lt_Some _ _ _ Hb0) as Hk.
  rewrite (forward_pass_lookup acts k b0 Hb0) in Hb'. injection Hb' as <-.
  simpl. rewrite forward_early_start_max_finish.
  destruct (max_finish_bounds (forward_upto acts k) (predecessors b0))
    as (_ & Hub & _).
  apply (Hub (id a0)); [done|]. apply find_activity_Some. exists i.
  split; [by rewrite forward_upto_lookup_done by lia|].
  split; [by rewrite (inputs_id _ _ Ea0)|].
  intros j c Hj Hji Hidc.
  destruct (same_inputs_lookup _ _ j c (forward_upto_inputs acts k) Hj)
    as (c0 & Hc0 & Ec0).
  assert (j = i); [|lia].
  apply (NoDup_lookup (id <$> acts) j i (id a0)); [done|..].
  - rewrite list_lookup_fmap, Hc0. simpl. by rewrite (inputs_id _ _ Ec0), Hidc.
  - by rewrite list_lookup_fmap, Ha0.
Qed.

(** Induction from the last position down, with every later position as
    induction hypothesis. *)
Lemma downward_strong_ind (n : nat) (P : nat → Prop) :
  (∀ m, (n ≤ m)%nat → P m) →
  (∀ m, (m < n)%nat → (∀ k, (m < k)%nat → P k) → P m) →
  ∀ m, P m.
Proof.
  intros Hge Hlt m.
  cut (∀ k, (m ≤ k)%nat → P k); [intros H; apply H; lia|].
  revert m. apply (downward_ind n (λ m, ∀ k, (m ≤ k)%nat → P k)).
  - intros m Hm k Hk. apply Hge. lia.
  - intros m Hm IH k Hk. destruct (decide (k = m)) as [->|Hne].
    + apply Hlt; [done|]. intros j Hj. apply IH. lia.
    + apply IH. lia.
Qed.

(** Membership in the successor list, by positions. *)
Lemma successors_lookup (t : list activity) a b :
  b ∈ successors t a ↔ (∃ k, t !! k = Some b) ∧ id a ∈ predecessors b.
Proof.
  unfold successors. rewrite list_elem_of_filter, (list_elem_of_lookup t).
  split; intros [H1 H2]; by split.
Qed.

(** A late start read from the successor list belongs to one successor. *)
Lemma late_start_successor (t : list activity) a x :
  x ∈ late_start <$> successors t a →
  ∃ k b, t !! k = Some b ∧ id a ∈ predecessors b ∧ late_start b = x.
Proof.
  intros (b & -> & ((k & Hk) & Hp)%successors_lookup)%list_elem_of_fmap.
  by exists k, b.
Qed.

(** In dependency order no late finish exceeds the project duration when
    durations are not negative. *)
Lemma late_finish_le_ordered acts r :
  insertion_ordered acts → Forall (λ a, 0 ≤ duration a) acts →
  fst (calculate_cpm acts) = inr r →
  ∀ i a, activities r !! i = Some a → late_finish a ≤ project_duration r.
Proof.
  intros Hord Hdur Hr. destruct (calculate_cpm_activities acts r Hr) as (Hin & _).
  apply (downward_strong_ind (length (activities r))
    (λ i, ∀ a, activities r !! i = Some a → late_finish a ≤ project_duration r)).
  { intros m Hm a Ha%lookup_lt_Some. lia. }
  intros m Hm IH a Ha.
  pose proof (late_finish_ordered acts r m a Hord Hr Ha) as Hmin.
  unfold is_min_or in Hmin.
  destruct (late_start <$> successors (activities r) a) as [|x xs] eqn:E;
    [lia|].
  destruct Hmin as [Hel _]. rewrite <-E in Hel.
  apply late_start_successor in Hel as (k & b & Hk & Hp & Hls).
  destruct (same_inputs_lookup _ _ m a Hin Ha) as (a0 & Ha0 & Ea0).
  destruct (same_inputs_lookup _ _ k b Hin Hk) as (b0 & Hb0 & Eb0).
  assert (Hmk : (m < k)%nat).
  { apply (Hord k m b0 a0 Hb0 Ha0).
    by rewrite (inputs_id _ _ Ea0), (inputs_predecessors _ _ Eb0). }
  pose proof (lookup_lt_Some _ _ _ Hk) as Hklt.
  assert (Hb : late_finish b ≤ project_duration r).
  { by apply (IH k). }
  destruct (calculate_cpm_fields acts r k b Hr Hk)
    as (_ & _ & _ & _ & _ & _ & _ & _ & Hlsb & _).
  rewrite Forall_lookup in Hdur. specialize (Hdur k b0 Hb0). simpl in Hdur.
  rewrite (inputs_duration _ _ Eb0) in Hdur. lia.
Qed.

End ScheduleMoreFacts.

Module ScheduleInvariants.
Import ScheduleCalculator ScheduleFacts ScheduleTheorems ScheduleMoreFacts.

(** X1. On every collection that is not empty [calculate_cpm] returns a
    schedule in which no activity starts before day 0, every early finish
    is the early start plus the duration, and the project duration is the
    latest early finish: no activity finishes later and one finishes
    exactly then. No assumption on ids, order or durations is needed. *)
Theorem calculate_cpm_early_bounds acts :
  acts ≠ [] →
  ∃ r, calculate_cpm acts = (inr r, activities r) ∧
    Forall (λ a, 0 ≤ early_start a ∧
                 early_finish a = early_start a + duration a ∧
                 early_finish a ≤ project_duration r) (activities r) ∧
    ∃ a, a ∈ activities r ∧ early_finish a = project_duration r.
Proof.
  intros Hne. destruct (calculate_cpm_returns acts Hne) as (r & Hr & Hpd & Hacts & _).
  exists r. split; [done|].
  assert (Hfst : fst (calculate_cpm acts) = inr r) by (by rewrite Hr).
  split.
  - apply Forall_lookup. intros i a Ha.
    destruct (calculate_cpm_fields acts r i a Hfst Ha)
      as (_ & _ & _ & _ & _ & H1 & H2 & H3 & _). done.
  - unfold py_max in Hpd.
    destruct (early_finish <$> forward_pass acts) as [|x xs] eqn:E; [done|].
    injection Hpd as Hpd. pose proof (foldl_max_elem x xs) as Hel.
    rewrite Hpd, <-E in Hel.
    apply list_elem_of_fmap in Hel as (b & Hb & [i Hi]%list_elem_of_lookup).
    pose proof (backward_pass_early (project_duration r) (forward_pass acts)) as H2.
    rewrite <-Hacts in H2.
    destruct (Forall2_lookup_l _ _ _ _ _ H2 Hi) as (a & Ha & _ & _ & Hef).
    exists a. split; [apply list_elem_of_lookup; by exists i|]. congruence.
Qed.

Lemma calculate_cpm_early_bounds_witness :
  cyclic_example ≠ [] ∧
  ∃ r, calculate_cpm cyclic_example = (inr r, activities r) ∧
    Forall (λ a, 0 ≤ early_start a ∧
                 early_finish a = early_start a + duration a ∧
                 early_finish a ≤ project_duration r) (activities r) ∧
    ∃ a, a ∈ activities r ∧ early_finish a = project_duration r.
Proof.
  assert (H1 : cyclic_example ≠ []) by discriminate.
  exact (conj H1 (calculate_cpm_early_bounds cyclic_example H1)).
Defined.

(** X2. When every predecessor was added before its dependents, the late
    finish [calculate_cpm] leaves at an activity is the smallest final late
    start among the activities that name it as a predecessor, and the
    project duration when none does; the late start is the late finish
    minus the duration. *)
Theorem calculate_cpm_late_times acts :
  acts ≠ [] → insertion_ordered acts →
  ∃ r, calculate_cpm acts = (inr r, activities r) ∧
    Forall (λ a,
      is_min_or (project_duration r)
        (late_start <$> filter (λ b, id a ∈ predecessors b) (activities r))
        (late_finish a) ∧
      late_start a = late_finish a - duration a) (activities r).
Proof.
  intros Hne Hord. destruct (calculate_cpm_returns acts Hne) as (r & Hr & _).
  exists r. split; [done|].
  assert (Hfst : fst (calculate_cpm acts) = inr r) by (by rewrite Hr).
  apply Forall_lookup. intros i a Ha. split.
  - by apply (late_finish_ordered acts r i a).
  - by destruct (calculate_cpm_fields acts r i a Hfst Ha)
      as (_ & _ & _ & _ & _ & _ & _ & _ & H & _).
Qed.

Lemma calculate_cpm_late_times_witness :
  parallel_example ≠ [] ∧ insertion_ordered parallel_example ∧
  ∃ r, calculate_cpm parallel_example = (inr r, activities r) ∧
    Forall (λ a,
      is_min_or (project_duration r)
        (late_start <$> filter (λ b, id a ∈ predecessors b) (activities r))
        (late_finish a) ∧
      late_start a = late_finish a - duration a) (activities r).
Proof.
  assert (H1 : parallel_example ≠ []) by discriminate.
  assert (H4 : insertion_ordered parallel_example)
    by (apply insertion_ordered_check_sound; reflexivity).
  exact (conj H1 (conj H4 (calculate_cpm_late_times parallel_example H1 H4))).
Defined.

(** In dependency order with unique ids no late finish lies before the
    early finish. *)
Lemma late_finish_ge_ordered acts r :
  NoDup (id <$> acts) → insertion_ordered acts →
  fst (calculate_cpm acts) = inr r →
  ∀ i a, activities r !! i = Some a → early_finish a ≤ late_finish a.
Proof.
  intros Hnodup Hord Hr. destruct (calculate_cpm_activities acts r Hr) as (Hin & _).
  apply (downward_strong_ind (length (activities r))
    (λ i, ∀ a, activities r !! i = Some a → early_finish a ≤ late_finish a)).
  { intros m Hm a Ha%lookup_lt_Some. lia. }
  intros m Hm IH a Ha.
  pose proof (late_finish_ordered acts r m a Hord Hr Ha) as Hmin.
  destruct (calculate_cpm_fields acts r m a Hr Ha)
    as (_ & _ & _ & _ & _ & _ & _ & Hpd & _).
  unfold is_min_or in Hmin.
  destruct (late_start <$> successors (activities r) a) as [|x xs] eqn:E;
    [lia|].
  destruct Hmin as [Hel _]. rewrite <-E in Hel.
  apply late_start_successor in Hel as (k & b & Hk & Hp & Hls).
  destruct (same_inputs_lookup _ _ m a Hin Ha) as (a0 & Ha0 & Ea0).
  destruct (same_inputs_lookup _ _ k b Hin Hk) as (b0 & Hb0 & Eb0).
  assert (Hmk : (m < k)%nat).
  { apply (Hord k m b0 a0 Hb0 Ha0).
    by rewrite (inputs_id _ _ Ea0), (inputs_predecessors _ _ Eb0). }
  pose proof (IH k Hmk b Hk) as Hb.
  pose proof (calculate_cpm_predecessor_le acts r m k a b Hnodup Hord Hr Ha Hk Hp).
  destruct (calculate_cpm_fields acts r k b Hr Hk)
    as (_ & _ & _ & _ & _ & _ & Hef & _ & Hlsb & _).
  lia.
Qed.

(** X3. With unique ids and every predecessor added before its dependents
    no activity gets a negative slack: the late times never lie before the
    early times. *)
Theorem calculate_cpm_slack_nonneg acts :
  acts ≠ [] → NoDup (id <$> acts) → insertion_ordered acts →
  ∃ r, calculate_cpm acts = (inr r, activities r) ∧
    Forall (λ a, 0 ≤ slack a ∧ early_start a ≤ late_start a ∧
                 early_finish a ≤ late_finish a) (activities r).
Proof.
  intros Hne Hnodup Hord.
  destruct (calculate_cpm_returns acts Hne) as (r & Hr & _).
  exists r. split; [done|].
  assert (Hfst : fst (calculate_cpm acts) = inr r) by (by rewrite Hr).
  apply Forall_lookup. intros i a Ha.
  pose proof (late_finish_ge_ordered acts r Hnodup Hord Hfst i a Ha).
  destruct (calculate_cpm_fields acts r i a Hfst Ha)
    as (_ & _ & _ & _ & _ & _ & Hef & _ & Hls & Hsl & _).
  lia.
Qed.

Lemma calculate_cpm_slack_nonneg_witness :
  parallel_example ≠ [] ∧ NoDup (id <$> parallel_example) ∧
  insertion_ordered parallel_example ∧
  ∃ r, calculate_cpm parallel_example = (inr r, activities r) ∧
    Forall (λ a, 0 ≤ slack a ∧ early_start a ≤ late_start a ∧
                 early_finish a ≤ late_finish a) (activities r).
Proof.
  assert (H1 : parallel_example ≠ []) by discriminate.
  assert (H2 : NoDup (id <$> parallel_example))
    by (apply (bool_decide_unpack _); vm_compute; exact I).
  assert (H4 : insertion_ordered parallel_example)
    by (apply insertion_ordered_check_sound; reflexivity).
  exact (conj H1 (conj H2 (conj H4
           (calculate_cpm_slack_nonneg parallel_example H1 H2 H4)))).
Defined.

(** X4. With unique ids, every predecessor added before its dependents and
    durations of at least one day, every activity whose early finish is the
    project duration is critical, and there is one: the critical path is
    never empty. *)
Theorem calculate_cpm_critical_path_nonempty acts :
  acts ≠ [] → NoDup (id <$> acts) → insertion_ordered acts →
  Forall (λ a, 0 < duration a) acts →
  ∃ r, calculate_cpm acts = (inr r, activities r) ∧
    Forall (λ a, early_finish a = project_duration r →
                 is_critical a = true ∧ id a ∈ critical_path r) (activities r) ∧
    critical_path r ≠ [].
Proof.
  intros Hne Hnodup Hord Hdur.
  destruct (calculate_cpm_returns acts Hne) as (r & Hr & Hpd & Hacts & Hcp).
  exists r. split; [done|].
  assert (Hfst : fst (calculate_cpm acts) = inr r) by (by rewrite Hr).
  destruct (calculate_cpm_activities acts r Hfst) as (Hin & _).
  assert (Hall : Forall (λ a, early_finish a = project_duration r →
                 is_critical a = true ∧ id a ∈ critical_path r) (activities r)).
  { apply Forall_lookup. intros i a Ha Hef.
    assert (Hcrit : is_critical a = true).
    { pose proof (late_finish_ordered acts r i a Hord Hfst Ha) as Hmin.
      destruct (calculate_cpm_fields acts r i a Hfst Ha)
        as (_ & _ & _ & _ & _ & _ & _ & _ & _ & Hsl & ->).
      apply bool_decide_eq_true. unfold is_min_or in Hmin.
      destruct (late_start <$> successors (activities r) a) as [|x xs] eqn:E;
        [lia|].
      exfalso. destruct Hmin as [Hel _]. rewrite <-E in Hel.
      apply late_start_successor in Hel as (k & b & Hk & Hp & _).
      pose proof (calculate_cpm_predecessor_le acts r i k a b
                    Hnodup Hord Hfst Ha Hk Hp) as Hle.
      destruct (calculate_cpm_fields acts r k b Hfst Hk)
        as (_ & _ & _ & _ & _ & _ & Hefb & Hpdb & _).
      destruct (same_inputs_lookup _ _ k b Hin Hk) as (b0 & Hb0 & Eb0).
      rewrite Forall_lookup in Hdur. specialize (Hdur k b0 Hb0). simpl in Hdur.
      rewrite (inputs_duration _ _ Eb0) in Hdur. lia. }
    split; [done|]. rewrite Hcp. apply list_elem_of_fmap. exists a.
    split; [done|]. apply list_elem_of_filter. split; [done|].
    apply list_elem_of_lookup. by exists i. }
  split; [done|].
  unfold py_max in Hpd.
  destruct (early_finish <$> forward_pass acts) as [|x xs] eqn:E; [done|].
  injection Hpd as Hpd. pose proof (foldl_max_elem x xs) as Hel.
  rewrite Hpd, <-E in Hel.
  apply list_elem_of_fmap in Hel as (b & Hb & [i Hi]%list_elem_of_lookup).
  pose proof (backward_pass_early (project_duration r) (forward_pass acts)) as H2.
  rewrite <-Hacts in H2.
  destruct (Forall2_lookup_l _ _ _ _ _ H2 Hi) as (a & Ha & _ & _ & Hef).
  rewrite Forall_lookup in Hall.
  destruct (Hall i a Ha) as [_ Hel]; [congruence|].
  intros Hnil. rewrite Hnil in Hel. by apply elem_of_nil in Hel.
Qed.

Lemma calculate_cpm_critical_path_nonempty_witness :
  parallel_example ≠ [] ∧ NoDup (id <$> parallel_example) ∧
  insertion_ordered parallel_example ∧
  Forall (λ a, 0 < duration a) parallel_example ∧
  ∃ r, calculate_cpm parallel_example = (inr r, activities r) ∧
    Forall (λ a, early_finish a = project_duration r →
                 is_critical a = true ∧ id a ∈ critical_path r) (activities r) ∧
    critical_path r ≠ [].
Proof.
  assert (H1 : parallel_example ≠ []) by discriminate.
  assert (H2 : NoDup (id <$> parallel_example))
    by (apply (bool_decide_unpack _); vm_compute; exact I).
  assert (H3 : Forall (λ a, 0 < duration a) parallel_example)
    by (apply (bool_decide_unpack _); vm_compute; exact I).
  assert (H4 : insertion_ordered parallel_example)
    by (apply insertion_ordered_check_sound; reflexivity).
  exact (conj H1 (conj H2 (conj H4 (conj H3
    (calculate_cpm_critical_path_nonempty parallel_example H1 H2 H4 H3))))).
Defined.

(** X5. When every predecessor was added before its dependents and no
    duration is negative, no activity is allowed to finish after the end
    of the project: every late finish, and every late start, is at most
    the project duration. *)
Theorem calculate_cpm_late_bounds acts :
  acts ≠ [] → insertion_ordered acts → Forall (λ a, 0 ≤ duration a) acts →
  ∃ r, calculate_cpm acts = (inr r, activities r) ∧
    Forall (λ a, late_start a ≤ late_finish a ∧
                 late_finish a ≤ project_duration r) (activities r).
Proof.
  intros Hne Hord Hdur.
  destruct (calculate_cpm_returns acts Hne) as (r & Hr & _).
  exists r. split; [done|].
  assert (Hfst : fst (calculate_cpm acts) = inr r) by (by rewrite Hr).
  destruct (calculate_cpm_activities acts r Hfst) as (Hin & _).
  apply Forall_lookup. intros i a Ha.
  pose proof (late_finish_le_ordered acts r Hord Hdur Hfst i a Ha).
  destruct (calculate_cpm_fields acts r i a Hfst Ha)
    as (_ & _ & _ & _ & _ & _ & _ & _ & Hls & _).
  destruct (same_inputs_lookup _ _ i a Hin Ha) as (a0 & Ha0 & Ea0).
  rewrite Forall_lookup in Hdur. specialize (Hdur i a0 Ha0). simpl in Hdur.
  rewrite (inputs_duration _ _ Ea0) in Hdur. lia.
Qed.

Lemma calculate_cpm_late_bounds_witness :
  parallel_example ≠ [] ∧ insertion_ordered parallel_example ∧
  Forall (λ a, 0 ≤ duration a) parallel_example ∧
  ∃ r, calculate_cpm parallel_example = (inr r, activities r) ∧
    Forall (λ a, late_start a ≤ late_finish a ∧
                 late_finish a ≤ project_duration r) (activities r).
Proof.
  assert (H1 : parallel_example ≠ []) by discriminate.
  assert (H3 : Forall (λ a, 0 ≤ duration a) parallel_example)
    by (apply (bool_decide_unpack _); vm_compute; exact I).
  assert (H4 : insertion_ordered parallel_example)
    by (apply insertion_ordered_check_sound; reflexivity).
  exact (conj H1 (conj H4 (conj H3
           (calculate_cpm_late_bounds parallel_example H1 H4 H3)))).
Defined.

End ScheduleInvariants.

(** ** Chains of dependent activities *)

Module ScheduleChains.
Import ScheduleCalculator ScheduleFacts ScheduleTheorems ScheduleMoreFacts.

Lemma total_duration_snoc chain a :
  total_duration (chain ++ [a]) = total_duration chain + duration a.
Proof.
  unfold total_duration. induction chain as [|x chain IH]; csimpl; [lia|].
  rewrite IH. lia.
Qed.

(** Along a chain the early finish of the last activity is at least the
    sum of the durations. *)
Lemma chain_early_finish acts r chain a :
  NoDup (id <$> acts) → insertion_ordered acts →
  fst (calculate_cpm acts) = inr r →
  Forall (λ b, b ∈ activities r) (chain ++ [a]) → chained (chain ++ [a]) →
  total_duration (chain ++ [a]) ≤ early_finish a.
Proof.
  intros Hnodup Hord Hr. revert a.
  induction chain as [|c chain IH] using rev_ind; intros a Hall Hch.
  - apply Forall_singleton in Hall as [i Hi]%list_elem_of_lookup.
    destruct (calculate_cpm_fields acts r i a Hr Hi)
      as (_ & _ & _ & _ & _ & Hes & Hef & _).
    rewrite total_duration_snoc. unfold total_duration. simpl. lia.
  - apply Forall_app in Hall as [Hall Ha].
    apply Forall_singleton in Ha as [i Hi]%list_elem_of_lookup.
    assert (Hstep : id c ∈ predecessors a ∧ chained (chain ++ [c])).
    { clear -Hch. induction chain as [|x chain IH]; simpl in *; [tauto|].
      destruct chain as [|y chain]; simpl in *; [tauto|].
      destruct Hch as [Hxy Hch]. destruct (IH Hch) as [H1 H2]. tauto. }
    destruct Hstep as [Hpred Hch'].
    specialize (IH c Hall Hch').
    pose proof Hall as Hc. apply Forall_app in Hc as [_ Hc].
    apply Forall_singleton in Hc as [k Hk]%list_elem_of_lookup.
    pose proof (calculate_cpm_predecessor_le acts r k i c a
                  Hnodup Hord Hr Hk Hi Hpred) as Hle.
    destruct (calculate_cpm_fields acts r i a Hr Hi)
      as (_ & _ & _ & _ & _ & _ & Hef & _).
    rewrite total_duration_snoc. lia.
Qed.

(** X6. With unique ids and every predecessor added before its
    dependents, the project is at least as long as every chain of dependent
    activities: the durations along a chain in which each activity names
    the one before it as a predecessor add up to at most the project
    duration. *)
Theorem calculate_cpm_chain_bound acts :
  acts ≠ [] → NoDup (id <$> acts) → insertion_ordered acts →
  ∃ r, calculate_cpm acts = (inr r, activities r) ∧
    ∀ chain, chain ≠ [] → Forall (λ a, a ∈ activities r) chain →
      chained chain → total_duration chain ≤ project_duration r.
Proof.
  intros Hne Hnodup Hord.
  destruct (calculate_cpm_returns acts Hne) as (r & Hr & _).
  exists r. split; [done|].
  assert (Hfst : fst (calculate_cpm acts) = inr r) by (by rewrite Hr).
  intros chain Hchain Hall Hch.
  destruct chain as [|a chain _] using rev_ind; [done|].
  pose proof (chain_early_finish acts r chain a Hnodup Hord Hfst Hall Hch) as H.
  apply Forall_app in Hall as [_ Ha].
  apply Forall_singleton in Ha as [i Hi]%list_elem_of_lookup.
  destruct (calculate_cpm_fields acts r i a Hfst Hi)
    as (_ & _ & _ & _ & _ & _ & _ & Hpd & _).
  lia.
Qed.

Lemma calculate_cpm_chain_bound_witness :
  parallel_example ≠ [] ∧ NoDup (id <$> parallel_example) ∧
  insertion_ordered parallel_example ∧
  ∃ r, calculate_cpm parallel_example = (inr r, activities r) ∧
    ∀ chain, chain ≠ [] → Forall (λ a, a ∈ activities r) chain →
      chained chain → total_duration chain ≤ project_duration r.
Proof.
  assert (H1 : parallel_example ≠ []) by discriminate.
  assert (H2 : NoDup (id <$> parallel_example))
    by (apply (bool_decide_unpack _); vm_compute; exact I).
  assert (H4 : insertion_ordered parallel_example)
    by (apply insertion_ordered_check_sound; reflexivity).
  exact (conj H1 (conj H2 (conj H4
           (calculate_cpm_chain_bound parallel_example H1 H2 H4)))).
Defined.

End ScheduleChains.

(** ** Adding an activity to a schedule *)

Lemma foldl_max_snoc x xs y :
  foldl Z.max x (xs ++ [y]) = Z.max (foldl Z.max x xs) y.
Proof. by rewrite foldl_app. Qed.

Module ScheduleGrowth.
Import ScheduleCalculator ScheduleFacts ScheduleTheorems.

(** An activity at the end of the list is not found under another id. *)
Lemma find_activity_app_ne s b p :
  id b ≠ p → find_activity (s ++ [b]) p = find_activity s p.
Proof.
  intros Hne. destruct (find_activity s p) as [c|] eqn:E.
  - apply find_activity_Some in E as (j & Hj & Hid & Hfirst).
    pose proof (lookup_lt_Some _ _ _ Hj) as Hlt.
    apply find_activity_Some. exists j.
    split; [by rewrite lookup_app_l|]. split; [done|].
    intros k c' Hk Hkj. rewrite lookup_app_l in Hk by lia. by eapply Hfirst.
  - apply find_activity_None in E. apply find_activity_None.
    rewrite fmap_app, elem_of_app. intros [H|H]; [done|].
    apply list_elem_of_singleton in H. simpl in H. congruence.
Qed.

Lemma forward_early_start_app s b a :
  id b ∉ predecessors a →
  forward_early_start (s ++ [b]) a = forward_early_start s a.
Proof.
  intros Hb. rewrite !forward_early_start_max_finish. apply max_finish_ext.
  intros p Hp. rewrite find_activity_app_ne; [done|].
  intros E. apply Hb. by rewrite E.
Qed.

Lemma forward_step_app s b i :
  (i < length s)%nat →
  (∀ a, s !! i = Some a → id b ∉ predecessors a) →
  forward_step (s ++ [b]) i = forward_step s i ++ [b].
Proof.
  intros Hi Hb. unfold forward_step. rewrite lookup_app_l by done.
  destruct (s !! i) as [a|] eqn:E; [|done].
  rewrite insert_app_l by done. by rewrite forward_early_start_app by auto.
Qed.

Lemma forward_upto_app acts b m :
  (m ≤ length acts)%nat →
  (∀ a, a ∈ acts → id b ∉ predecessors a) →
  forward_upto (acts ++ [b]) m = forward_upto acts m ++ [b].
Proof.
  intros Hm Hb. induction m as [|m IH]; [done|].
  rewrite !forward_upto_S, IH by lia.
  assert (Hlen : length (forward_upto acts m) = length acts).
  { apply same_inputs_length, forward_upto_inputs. }
  apply forward_step_app; [lia|]. intros a Ha.
  destruct (same_inputs_lookup _ _ m a (forward_upto_inputs acts m) Ha)
    as (a0 & Ha0 & Ea0).
  rewrite <-(inputs_predecessors _ _ Ea0). apply Hb.
  apply list_elem_of_lookup. by exists m.
Qed.

(** The forward pass of the longer list is the forward pass of the shorter
    one, followed by the new activity with its early times. *)
Lemma forward_pass_app acts b :
  (∀ a, a ∈ acts → id b ∉ predecessors a) →
  ∃ es, forward_pass (acts ++ [b]) = forward_pass acts ++ [set_early b es].
Proof.
  intros Hb. rewrite forward_pass_upto, length_app, Nat.add_1_r, forward_upto_S.
  rewrite forward_upto_app by done. rewrite <-forward_pass_upto.
  assert (Hlen : length (forward_pass acts) = length acts).
  { apply same_inputs_length, forward_pass_inputs. }
  unfold forward_step. rewrite <-Hlen, list_lookup_middle by done.
  eexists.
  replace (length (forward_pass acts))
    with (length (forward_pass acts) + 0)%nat by lia.
  rewrite insert_app_r. done.
Qed.

(** X7. Adding an activity that no activity of the schedule names as a
    predecessor changes no early time of the activities that were there
    and cannot shorten the project: the schedule of the longer list keeps
    every early start and early finish, and its project duration is at
    least the former one. *)
Theorem calculate_cpm_add_activity acts activity_id nm dur preds :
  acts ≠ [] → (∀ a, a ∈ acts → activity_id ∉ predecessors a) →
  ∃ r r', fst (calculate_cpm acts) = inr r ∧
    fst (calculate_cpm (add_activity activity_id nm dur preds acts)) = inr r' ∧
    Forall2 early_agree (activities r) (take (length acts) (activities r')) ∧
    project_duration r ≤ project_duration r'.
Proof.
  intros Hne Hb. unfold add_activity.
  match goal with |- context [acts ++ [?x]] => set (b := x) end.
  assert (Hne' : acts ++ [b] ≠ []) by (by destruct acts).
  destruct (calculate_cpm_returns acts Hne) as (r & Hr & Hpd & Hacts & _).
  destruct (calculate_cpm_returns (acts ++ [b]) Hne')
    as (r' & Hr' & Hpd' & Hacts' & _).
  exists r, r'. split; [by rewrite Hr|]. split; [by rewrite Hr'|].
  destruct (forward_pass_app acts b Hb) as (es & Hfp).
  assert (Hlen : length (forward_pass acts) = length acts).
  { apply same_inputs_length, forward_pass_inputs. }
  split.
  - pose proof (backward_pass_early (project_duration r) (forward_pass acts)) as H1.
    pose proof (backward_pass_early (project_duration r') (forward_pass (acts ++ [b])))
      as H2.
    rewrite <-Hacts in H1. rewrite <-Hacts', Hfp in H2.
    apply Forall2_same_length_lookup_2.
    { rewrite length_take, <-(Forall2_length _ _ _ H1), <-(Forall2_length _ _ _ H2).
      rewrite length_app, Hlen. simpl. lia. }
    intros i a a' Ha Ha'. apply lookup_take_Some in Ha' as [Ha' Hi].
    destruct (Forall2_lookup_r _ _ _ _ _ H1 Ha) as (f & Hf & E1 & E2 & E3).
    destruct (Forall2_lookup_r _ _ _ _ _ H2 Ha') as (f' & Hf' & E1' & E2' & E3').
    rewrite lookup_app_l in Hf' by lia. assert (f' = f) as -> by congruence.
    unfold early_agree. by rewrite E1, E2, E3, E1', E2', E3'.
  - rewrite Hfp, fmap_app in Hpd'. unfold py_max in Hpd, Hpd'.
    destruct (early_finish <$> forward_pass acts) as [|x xs]; [done|].
    simpl in Hpd'. injection Hpd as <-. injection Hpd' as <-.
    rewrite foldl_max_snoc. lia.
Qed.

Lemma calculate_cpm_add_activity_witness :
  chain_example ≠ [] ∧ (∀ a, a ∈ chain_example → 4 ∉ predecessors a) ∧
  ∃ r r', fst (calculate_cpm chain_example) = inr r ∧
    fst (calculate_cpm (add_activity 4 "D" 6 (Some [1]) chain_example)) = inr r' ∧
    Forall2 early_agree (activities r)
      (take (length chain_example) (activities r')) ∧
    project_duration r ≤ project_duration r'.
Proof.
  assert (H1 : chain_example ≠ []) by discriminate.
  assert (H2 : ∀ a, a ∈ chain_example → 4 ∉ predecessors a).
  { apply Forall_forall. apply (bool_decide_unpack _). vm_compute. exact I. }
  exact (conj H1 (conj H2
    (calculate_cpm_add_activity chain_example 4 "D" 6 (Some [1]) H1 H2))).
Defined.

End ScheduleGrowth.

(** ** The Gantt data and the schedule view *)

(** Every failure of [date_add] is an [OverflowError]. *)
Lemma date_add_inl d n e : date_add d n = inl e → ∃ msg, e = OverflowError msg.
Proof.
  unfold date_add, timedelta_days. case_decide; simpl.
  - case_decide; [done|]. intros [= <-]. by eexists.
  - intros [= <-]. by eexists.
Qed.

Lemma date_add_range d n o : date_add d n = inr o → 0 < o ≤ MAXORDINAL.
Proof.
  unfold date_add, timedelta_days. case_decide; simpl; [|done].
  case_decide; [|done]. by intros [= <-].
Qed.

Module GanttFacts.
Import ScheduleCalculator ScheduleFacts ScheduleTheorems ScheduleMoreFacts.

Lemma gantt_entry_inl start a e :
  gantt_entry start a = inl e → ∃ msg, e = OverflowError msg.
Proof.
  unfold gantt_entry.
  destruct (date_add start (early_start a)) as [e1|s] eqn:Es; simpl.
  { intros [= <-]. by eapply date_add_inl. }
  destruct (date_add start (early_finish a)) as [e2|f] eqn:Ef; simpl; [|done].
  intros [= <-]. by eapply date_add_inl.
Qed.

Lemma gantt_loop_inl start todo acc e :
  gantt_loop start todo acc = inl e → ∃ msg, e = OverflowError msg.
Proof.
  revert acc. induction todo as [|a rest IH]; intros acc; simpl; [done|].
  destruct (gantt_entry start a) as [e1|g] eqn:E; simpl.
  - intros [= <-]. by eapply gantt_entry_inl.
  - apply IH.
Qed.

Lemma gantt_loop_inr start todo acc g :
  gantt_loop start todo acc = inr g →
  Forall (λ a, 0 < start + early_start a ≤ MAXORDINAL ∧
               0 < start + early_finish a ≤ MAXORDINAL) todo.
Proof.
  intros (entries & _ & H)%gantt_loop_entries.
  induction H as [|a e rest es Ha _ IH]; constructor; [|done].
  unfold gantt_entry in Ha.
  destruct (date_add start (early_start a)) as [|s] eqn:Es; simpl in Ha; [done|].
  destruct (date_add start (early_finish a)) as [|f] eqn:Ef; simpl in Ha; [done|].
  pose proof (date_add_range _ _ _ Es). pose proof (date_add_range _ _ _ Ef).
  apply date_add_inr in Es, Ef. subst. done.
Qed.

End GanttFacts.

Module GanttTheorems.
Import ScheduleCalculator ScheduleFacts ScheduleTheorems ScheduleMoreFacts GanttFacts.

(** X8. For a start date of the calendar [generate_gantt_data] returns,
    with one record per activity, exactly when the start and end date of
    every activity lie in the range of [datetime.date]; in every other case
    it raises, and the exception is an [OverflowError]. *)
Theorem generate_gantt_data_overflow start acts :
  0 < start ≤ MAXORDINAL →
  ((∃ g, fst (generate_gantt_data start acts) = inr g ∧ length g = length acts)
     ↔ Forall (on_calendar start) acts) ∧
  ((∃ msg, fst (generate_gantt_data start acts) = inl (OverflowError msg))
     ↔ ¬ Forall (on_calendar start) acts).
Proof.
  intros Hstart.
  assert (Hret : (∃ g, fst (generate_gantt_data start acts) = inr g)
                 → Forall (on_calendar start) acts).
  { intros (g & Hg). simpl in Hg. apply gantt_loop_inr in Hg.
    eapply Forall_impl; [exact Hg|]. intros a [H1 H2]. unfold on_calendar. tauto. }
  split; [split|split].
  - intros (g & Hg & _). apply Hret. by exists g.
  - apply generate_gantt_data_returns.
  - intros (msg & Hmsg) Hall.
    destruct (generate_gantt_data_returns start acts Hall) as (g & Hg & _).
    congruence.
  - intros Hnot. destruct (fst (generate_gantt_data start acts)) as [e|g] eqn:E.
    + simpl in E. destruct (gantt_loop_inl _ _ _ _ E) as (msg & ->). by exists msg.
    + exfalso. apply Hnot, Hret. by exists g.
Qed.

Lemma generate_gantt_data_overflow_witness :
  0 < 3652055 ≤ MAXORDINAL ∧
  ¬ Forall (on_calendar 3652055) (snd (calculate_cpm parallel_example)) ∧
  ∃ msg, fst (generate_gantt_data 3652055 (snd (calculate_cpm parallel_example)))
         = inl (OverflowError msg).
Proof.
  assert (H1 : 0 < 3652055 ≤ MAXORDINAL) by (unfold MAXORDINAL; lia).
  assert (H2 : ∃ msg,
     fst (generate_gantt_data 3652055 (snd (calculate_cpm parallel_example)))
     = inl (OverflowError msg)) by (eexists; vm_compute; reflexivity).
  pose proof (generate_gantt_data_overflow 3652055
                (snd (calculate_cpm parallel_example)) H1) as [_ Hiff].
  exact (conj H1 (conj (proj1 Hiff H2) H2)).
Defined.

(** X9. The Gantt records of a schedule computed by [calculate_cpm]: there
    is one per activity; no bar starts before the start date of the
    project; each bar ends its activity's duration after it starts; and
    the bars flagged critical are the activities of the critical path, in
    the same order. *)
Theorem generate_gantt_data_after_cpm acts start r g :
  fst (calculate_cpm acts) = inr r →
  fst (generate_gantt_data start (snd (calculate_cpm acts))) = inr g →
  length g = length acts ∧
  Forall (λ e, ∃ s, start ≤ s ∧ 0 < s ≤ MAXORDINAL ∧
                    start_date e = strftime_Ymd s ∧
                    end_date e = strftime_Ymd (s + gantt_duration e)) g ∧
  gantt_id <$> filter (λ e, gantt_is_critical e = true) g = critical_path r.
Proof.
  intros Hr Hg.
  assert (Hsnd : snd (calculate_cpm acts) = activities r).
  { unfold calculate_cpm in *. destruct (py_max _); simpl in *; [done|].
    by injection Hr as <-. }
  assert (Hcp : critical_path r
                = id <$> filter (λ a, is_critical a = true) (activities r)).
  { unfold calculate_cpm in Hr. destruct (py_max _); simpl in *; [done|].
    by injection Hr as <-. }
  rewrite Hsnd in Hg. simpl in Hg.
  pose proof (gantt_loop_inr _ _ _ _ Hg) as Hcal.
  apply gantt_loop_entries in Hg as (entries & -> & Hent). simpl.
  destruct (calculate_cpm_activities acts r Hr) as (Hin & _).
  split; [|split].
  - rewrite <-(Forall2_length _ _ _ Hent). by apply same_inputs_length.
  - apply Forall_lookup. intros i e He.
    destruct (Forall2_lookup_r _ _ _ _ _ Hent He) as (a & Ha & Hentry).
    rewrite Forall_lookup in Hcal. destruct (Hcal i a Ha) as [Hs _].
    apply gantt_entry_projects in Hentry
      as (Hsd & Hed & _ & _ & Hdur & _).
    destruct (calculate_cpm_fields acts r i a Hr Ha)
      as (_ & _ & _ & _ & _ & Hes & Hef & _).
    exists (start + early_start a). split; [lia|]. split; [done|].
    split; [done|]. rewrite Hed, Hdur. f_equal. lia.
  - rewrite Hcp. symmetry. apply fmap_filter_Forall2.
    eapply Forall2_impl; [exact Hent|]. simpl. intros a e Hentry.
    apply gantt_entry_projects in Hentry
      as (_ & _ & Hid & _ & _ & _ & Hcrit & _).
    rewrite Hcrit. by split.
Qed.

Lemma generate_gantt_data_after_cpm_witness :
  ∃ r g,
    fst (calculate_cpm parallel_example) = inr r ∧
    fst (generate_gantt_data 738886 (snd (calculate_cpm parallel_example)))
    = inr g ∧
    length g = length parallel_example ∧
    Forall (λ e, ∃ s, 738886 ≤ s ∧ 0 < s ≤ MAXORDINAL ∧
                      start_date e = strftime_Ymd s ∧
                      end_date e = strftime_Ymd (s + gantt_duration e)) g ∧
    gantt_id <$> filter (λ e, gantt_is_critical e = true) g = critical_path r.
Proof.
  assert (H1 : ∃ r, fst (calculate_cpm parallel_example) = inr r)
    by (eexists; vm_compute; reflexivity).
  assert (H2 : ∃ g,
     fst (generate_gantt_data 738886 (snd (calculate_cpm parallel_example)))
     = inr g) by (eexists; vm_compute; reflexivity).
  destruct H1 as (r & H1), H2 as (g & H2). exists r, g.
  exact (conj H1 (conj H2
    (generate_gantt_data_after_cpm parallel_example 738886 r g H1 H2))).
Defined.

End GanttTheorems.

Module RoutesTheorems.
Import ScheduleCalculator ScheduleFacts ScheduleTheorems ScheduleMoreFacts GanttFacts.
Import Routes ReportGenerator.

(** The calculator filled by the loop of [schedule_detail] holds one
    activity per row, in the order of the rows. *)
Lemma add_rows_lookup rows acts :
  inputs <$> foldl add_row acts rows
  = (inputs <$> acts)
    ++ ((λ row, (row_id row, row_name row, row_duration row,
                 default [] (row_predecessors row))) <$> rows).
Proof.
  revert acts. induction rows as [|row rows IH]; intros acts; simpl.
  - by rewrite app_nil_r.
  - rewrite IH. unfold add_row, add_activity.
    rewrite fmap_app, <-app_assoc. done.
Qed.

(** X10. [schedule_detail] never lets the [ValueError] of [calculate_cpm]
    on an empty collection escape: with no rows it hands the template no
    CPM data and an empty Gantt list, without calling the calculator; with
    rows the only exception that can leave it is the [OverflowError] of
    the calendar, and otherwise the CPM data holds one activity per row
    with the row's id, name, duration and predecessors, in the order of
    the rows, and the Gantt list one record per row. *)
Theorem schedule_detail_outcome rows start :
  match schedule_detail rows start with
  | inl e => rows ≠ [] ∧ ∃ msg, e = OverflowError msg
  | inr (cpm_data, gantt_data) =>
      match cpm_data with
      | None => rows = [] ∧ gantt_data = []
      | Some r =>
          rows ≠ [] ∧
          inputs <$> activities r
          = (λ row, (row_id row, row_name row, row_duration row,
                     default [] (row_predecessors row))) <$> rows ∧
          length gantt_data = length rows
      end
  end.
Proof.
  unfold schedule_detail. destruct (decide (rows = [])) as [->|Hne]; [done|].
  set (calculator := foldl add_row [] rows).
  assert (Hin : inputs <$> calculator
     = (λ row, (row_id row, row_name row, row_duration row,
                default [] (row_predecessors row))) <$> rows).
  { unfold calculator. by rewrite add_rows_lookup. }
  assert (Hcne : calculator ≠ []).
  { intros E. rewrite E in Hin. destruct rows; [done|discriminate]. }
  destruct (calculate_cpm_returns calculator Hcne) as (r & Hr & _).
  rewrite Hr. simpl.
  assert (Hfst : fst (calculate_cpm calculator) = inr r) by (by rewrite Hr).
  destruct (calculate_cpm_activities calculator r Hfst) as (Hinr & _).
  destruct (gantt_loop start (activities r) []) as [e|g] eqn:E; simpl.
  - split; [done|]. by eapply gantt_loop_inl.
  - split; [done|]. split; [by rewrite Hinr|].
    apply gantt_loop_entries in E as (entries & -> & Hent). simpl.
    rewrite <-(Forall2_length _ _ _ Hent).
    rewrite (same_inputs_length _ _ Hinr).
    by rewrite <-(length_fmap inputs calculator), Hin, length_fmap.
Qed.

(** X11. The schedule report built from the dict [calculate_cpm] returns
    shows the project duration, counts one activity per activity added and
    never counts more critical activities than activities. *)
Theorem generate_schedule_report_of_cpm acts r project_name now :
  fst (calculate_cpm acts) = inr r →
  let report := generate_schedule_report project_name (of_cpm_result r) now in
  report_duration report = project_duration r ∧
  report_total_activities report = length acts ∧
  (report_critical_activities report ≤ report_total_activities report)%nat ∧
  (report_critical_activities report
   = length (filter (λ a, is_critical a = true) (activities r))).
Proof.
  intros Hr. simpl.
  destruct (calculate_cpm_activities acts r Hr) as (Hin & _).
  assert (Hcp : critical_path r
                = id <$> filter (λ a, is_critical a = true) (activities r)).
  { unfold calculate_cpm in Hr. destruct (py_max _); simpl in *; [done|].
    by injection Hr as <-. }
  split; [done|]. split; [by apply same_inputs_length|].
  rewrite Hcp, length_fmap. split; [apply length_filter|done].
Qed.

Lemma generate_schedule_report_of_cpm_witness :
  ∃ r, fst (calculate_cpm parallel_example) = inr r ∧
  let report := generate_schedule_report (Some "Obra") (of_cpm_result r)
                  "03/11/2026 10:00" in
  report_duration report = project_duration r ∧
  report_total_activities report = length parallel_example ∧
  (report_critical_activities report ≤ report_total_activities report)%nat ∧
  (report_critical_activities report
   = length (filter (λ a, is_critical a = true) (activities r))).
Proof.
  assert (H1 : ∃ r, fst (calculate_cpm parallel_example) = inr r)
    by (eexists; vm_compute; reflexivity).
  destruct H1 as (r & H1). exists r.
  exact (conj H1 (generate_schedule_report_of_cpm parallel_example r
                    (Some "Obra") "03/11/2026 10:00" H1)).
Defined.

End RoutesTheorems.

(** ** More on rounding *)

Lemma py_round_0 n : (py_round 0 n == 0)%Q.
Proof. apply (py_round_exact _ n 0). apply Qmult_0_l. Qed.

Lemma py_round_nonneg x n : (0 <= x)%Q → (0 <= py_round x n)%Q.
Proof. intros H. rewrite <-(py_round_0 n). by apply py_round_mono. Qed.

Lemma py_round_nonpos x n : (x <= 0)%Q → (py_round x n <= 0)%Q.
Proof. intros H. rewrite <-(py_round_0 n). by apply py_round_mono. Qed.




(** ** The budget calculator *)

Module BudgetFacts.
Import ProductivityFacts BudgetCalculator.

Lemma py_sum_foldr l : (py_sum l == foldr Qplus 0 l)%Q.
Proof. unfold py_sum. rewrite foldl_Qplus. lra. Qed.





Lemma py_sum_mono {A} (f g : A → Q) (l : list A) :
  Forall (λ a, (f a <= g a)%Q) l → (py_sum (f <$> l) <= py_sum (g <$> l))%Q.
Proof.
  intros H. rewrite !py_sum_foldr.
  induction H as [|a l Ha _ IH]; csimpl; lra.
Qed.



End BudgetFacts.

(** ** More on the S-curve and the earned-value metrics *)

Module ProductivityMoreFacts.
Import ProductivityCalculator ProductivityFacts.

(** *** Failures of the first loop *)

(** Once an exception is raised the loops are left: the later days and
    activities change nothing. *)
Lemma add_days_inl per_day activity_start e days :
  foldl (add_day per_day activity_start) (inl e) days = inl e.
Proof. by induction days. Qed.

Lemma add_activities_inl start e acts :
  foldl (add_activity_cost start) (inl e) acts = inl e.
Proof. by induction acts. Qed.

(** *** Keys of the daily costs *)

Lemma add_day_NoDup per_day activity_start costs day costs' :
  add_day per_day activity_start (inr costs) day = inr costs' →
  NoDup (dict_keys costs) → NoDup (dict_keys costs').
Proof.
  unfold add_day. simpl.
  destruct (date_add activity_start day) as [|d]; simpl; [done|].
  intros [= <-] H. destruct (dict_get costs _); by repeat apply dict_set_NoDup.
Qed.

Lemma add_days_NoDup per_day activity_start days costs costs' :
  foldl (add_day per_day activity_start) (inr costs) days = inr costs' →
  NoDup (dict_keys costs) → NoDup (dict_keys costs').
Proof.
  revert costs. induction days as [|day days IH]; intros costs; cbn [foldl].
  - by intros [= <-].
  - destruct (add_day per_day activity_start (inr costs) day) as [e|c1] eqn:E.
    + by rewrite add_days_inl.
    + intros H Hc. apply (IH c1 H). by eapply add_day_NoDup.
Qed.

Lemma add_activity_cost_NoDup start costs a costs' :
  add_activity_cost start (inr costs) a = inr costs' →
  NoDup (dict_keys costs) → NoDup (dict_keys costs').
Proof.
  unfold add_activity_cost. simpl.
  destruct (cost_per_day a) as [|per_day]; simpl; [done|].
  destruct (date_add start _) as [|activity_start]; simpl; [done|].
  apply add_days_NoDup.
Qed.

Lemma daily_costs_NoDup start acts costs costs' :
  foldl (add_activity_cost start) (inr costs) acts = inr costs' →
  NoDup (dict_keys costs) → NoDup (dict_keys costs').
Proof.
  revert costs. induction acts as [|a acts IH]; intros costs; cbn [foldl].
  - by intros [= <-].
  - destruct (add_activity_cost start (inr costs) a) as [e|c1] eqn:E.
    + by rewrite add_activities_inl.
    + intros H Hc. apply (IH c1 H). by eapply add_activity_cost_NoDup.
Qed.

(** *** The percentages *)





Lemma Qpositive_true x : (0 < x)%Q → Qpositive x = true.
Proof. intros Hx. unfold Qpositive. by apply Qgt_alt in Hx as ->. Qed.

Lemma Qpositive_false x : (x <= 0)%Q → Qpositive x = false.
Proof.
  intros Hx. unfold Qpositive. destruct (Qcompare_spec x 0); [done..|lra].
Qed.

End ProductivityMoreFacts.

Module ProductivityInvariants.
Import ProductivityCalculator ProductivityFacts ProductivityMoreFacts.

(** X12. An activity whose duration is present and 0 makes
    [calculate_s_curve] raise [ZeroDivisionError]: the cost per day is
    computed before any date, and the activities after it are never
    reached. The activities before it are ones the loop gets past. *)
Theorem calculate_s_curve_zero_duration before a after start :
  0 < start ≤ MAXORDINAL → Forall priced before →
  Forall (within_calendar start) before →
  duration a = Some 0 →
  ∃ msg, calculate_s_curve (before ++ a :: after) start
         = inl (ZeroDivisionError msg).
Proof.
  intros Hstart Hpriced Hcal Hdur.
  assert (Hwf0 : well_formed dict_empty) by (split; constructor).
  destruct (daily_costs_ok start before dict_empty Hstart Hpriced Hcal Hwf0)
    as (daily & Edaily & _).
  unfold calculate_s_curve. rewrite foldl_app, Edaily. cbn [foldl].
  assert (Ha : add_activity_cost start (inr daily) a
               = inl (ZeroDivisionError "division by zero")).
  { unfold add_activity_cost, cost_per_day. simpl. by rewrite Hdur. }
  rewrite Ha, add_activities_inl. simpl. by eexists.
Qed.

Lemma calculate_s_curve_zero_duration_witness :
  0 < 738886 ≤ MAXORDINAL ∧ Forall priced overlap_example ∧
  Forall (within_calendar 738886) overlap_example ∧
  ∃ msg, calculate_s_curve
           (overlap_example
              ++ {| cost := Some 10%Q; duration := Some 0;
                    early_start := Some 0 |} :: overlap_example) 738886
         = inl (ZeroDivisionError msg).
Proof.
  assert (H1 : 0 < 738886 ≤ MAXORDINAL) by (unfold MAXORDINAL; lia).
  assert (H2 : Forall priced overlap_example).
  { repeat constructor.
    - exists 100%Q, 3. split; [done|]. split; [done|]. split; [reflexivity|lia].
    - exists 50%Q, 2. split; [done|]. split; [done|]. split; [reflexivity|lia]. }
  assert (H3 : Forall (within_calendar 738886) overlap_example).
  { repeat constructor; unfold MAXORDINAL; simpl; lia. }
  exact (conj H1 (conj H2 (conj H3
    (calculate_s_curve_zero_duration overlap_example
       {| cost := Some 10%Q; duration := Some 0; early_start := Some 0 |}
       overlap_example 738886 H1 H2 H3 eq_refl)))).
Defined.



(** X14. Whatever the activities, a series returned by
    [calculate_s_curve] has one point per calendar day: its dates are in
    ascending order and no date appears twice, also where activities
    overlap. *)
Theorem calculate_s_curve_dates acts start series :
  calculate_s_curve acts start = inr series →
  NoDup (date <$> series) ∧ Sorted String.le (date <$> series).
Proof.
  unfold calculate_s_curve.
  destruct (foldl (add_activity_cost start) (inr dict_empty) acts)
    as [e|daily] eqn:E; simpl; [done|].
  intros [= <-]. rewrite accumulate_dates. simpl. split.
  - assert (Hperm : sorted (dict_keys daily) ≡ₚ dict_keys daily)
      by apply merge_sort_Permutation.
    rewrite Hperm. apply (daily_costs_NoDup start acts dict_empty daily E).
    constructor.
  - apply Sorted_merge_sort, _.
Qed.

Lemma calculate_s_curve_dates_witness :
  ∃ series, calculate_s_curve overlap_example 738886 = inr series ∧
    NoDup (date <$> series) ∧ Sorted String.le (date <$> series).
Proof.
  assert (H : ∃ series, calculate_s_curve overlap_example 738886 = inr series)
    by (eexists; vm_compute; reflexivity).
  destruct H as (series & H). exists series.
  exact (conj H (calculate_s_curve_dates overlap_example 738886 series H)).
Defined.

(** X15. The signs of the earned-value metrics, rounding included: with a
    positive actual cost, an earned value of at least the actual cost
    gives a cost variance and a budget efficiency that are not negative
    and a cost performance index of at least 1, and an earned value of at
    most the actual cost gives the opposite signs; the same holds for the
    schedule metrics against a positive planned cost. *)
Theorem calculate_progress_metrics_signs planned actual earned :
  (0 < actual)%Q → (0 < planned)%Q →
  let m := calculate_progress_metrics planned actual earned in
  ((actual <= earned)%Q →
     (0 <= cost_variance m)%Q ∧ (1 <= cost_performance_index m)%Q ∧
     (0 <= budget_efficiency m)%Q) ∧
  ((earned <= actual)%Q →
     (cost_variance m <= 0)%Q ∧ (cost_performance_index m <= 1)%Q ∧
     (budget_efficiency m <= 0)%Q) ∧
  ((planned <= earned)%Q →
     (0 <= schedule_variance m)%Q ∧ (1 <= schedule_performance_index m)%Q ∧
     (0 <= schedule_efficiency m)%Q) ∧
  ((earned <= planned)%Q →
     (schedule_variance m <= 0)%Q ∧ (schedule_performance_index m <= 1)%Q ∧
     (schedule_efficiency m <= 0)%Q).
Proof.
  intros Ha Hp m. unfold m, calculate_progress_metrics. simpl.
  rewrite (Qpositive_true actual Ha), (Qpositive_true planned Hp).
  assert (H1 : (py_round 1 3 == 1)%Q) by (by apply (py_round_exact _ 3 1000)).
  assert (Hge : ∀ d, (0 < d)%Q → (d <= earned)%Q →
            (0 <= py_round (earned - d) 2)%Q ∧ (1 <= py_round (earned / d) 3)%Q ∧
            (0 <= py_round (earned / d * 100 - 100) 1)%Q).
  { intros d Hd Hle.
    assert (Hq : (1 <= earned / d)%Q) by (apply Qle_shift_div_l; lra).
    split; [|split].
    - apply py_round_nonneg. lra.
    - rewrite <-H1. by apply py_round_mono.
    - apply py_round_nonneg. lra. }
  assert (Hle : ∀ d, (0 < d)%Q → (earned <= d)%Q →
            (py_round (earned - d) 2 <= 0)%Q ∧ (py_round (earned / d) 3 <= 1)%Q ∧
            (py_round (earned / d * 100 - 100) 1 <= 0)%Q).
  { intros d Hd Hle.
    assert (Hq : (earned / d <= 1)%Q) by (apply Qle_shift_div_r; lra).
    split; [|split].
    - apply py_round_nonpos. lra.
    - rewrite <-H1. by apply py_round_mono.
    - apply py_round_nonpos. lra. }
  split; [by apply Hge|]. split; [by apply Hle|].
  split; [by apply Hge|by apply Hle].
Qed.

Lemma calculate_progress_metrics_signs_witness :
  (0 < 900)%Q ∧ (0 < 1000)%Q ∧ (900 <= 950)%Q ∧ (950 <= 1000)%Q ∧
  let m := calculate_progress_metrics 1000 900 950 in
  ((0 <= cost_variance m)%Q ∧ (1 <= cost_performance_index m)%Q ∧
   (0 <= budget_efficiency m)%Q) ∧
  ((schedule_variance m <= 0)%Q ∧ (schedule_performance_index m <= 1)%Q ∧
   (schedule_efficiency m <= 0)%Q).
Proof.
  assert (H1 : (0 < 900)%Q) by reflexivity.
  assert (H2 : (0 < 1000)%Q) by reflexivity.
  assert (H3 : (900 <= 950)%Q) by discriminate.
  assert (H4 : (950 <= 1000)%Q) by discriminate.
  split; [exact H1|]. split; [exact H2|]. split; [exact H3|]. split; [exact H4|].
  destruct (calculate_progress_metrics_signs 1000%Q 900%Q 950%Q H1 H2)
    as (Hc & _ & _ & Hs).
  exact (conj (Hc H3) (Hs H4)).
Defined.

(** X16. With an actual cost of zero or less the guard of the division
    makes the cost performance index 0, so the budget efficiency reads
    -100 whatever was earned; the same for the schedule efficiency with a
    planned cost of zero or less. *)
Theorem calculate_progress_metrics_no_cost planned actual earned :
  let m := calculate_progress_metrics planned actual earned in
  ((actual <= 0)%Q →
     (cost_performance_index m == 0)%Q ∧ (budget_efficiency m == -100)%Q) ∧
  ((planned <= 0)%Q →
     (schedule_performance_index m == 0)%Q ∧
     (schedule_efficiency m == -100)%Q).
Proof.
  intros m. unfold m, calculate_progress_metrics. simpl.
  split; intros H; rewrite (Qpositive_false _ H); split; by vm_compute.
Qed.

Lemma calculate_progress_metrics_no_cost_witness :
  (0 <= 0)%Q ∧
  let m := calculate_progress_metrics 1000 0 950 in
  (cost_performance_index m == 0)%Q ∧ (budget_efficiency m == -100)%Q.
Proof.
  assert (H1 : (0 <= 0)%Q) by discriminate.
  exact (conj H1 (proj1 (calculate_progress_metrics_no_cost 1000%Q 0%Q 950%Q) H1)).
Defined.

End ProductivityInvariants.

Module ProductivityDays.
Import ProductivityCalculator ProductivityFacts ProductivityMoreFacts.

(** *** The days of the daily costs *)

Lemma dict_keys_set_elem {V} (d : dict V) k v k' :
  k' ∈ dict_keys (dict_set d k v) ↔ k' ∈ dict_keys d ∨ k' = k.
Proof.
  rewrite dict_keys_set. case_decide as Hk.
  - split; [by left|]. by intros [H| ->].
  - rewrite elem_of_app, list_elem_of_singleton. done.
Qed.

Lemma add_day_keys per_day activity_start costs day costs' :
  add_day per_day activity_start (inr costs) day = inr costs' →
  ∀ k, k ∈ dict_keys costs' ↔
       k ∈ dict_keys costs ∨ k = strftime_Ymd (activity_start + day).
Proof.
  unfold add_day. simpl.
  destruct (date_add activity_start day) as [|d] eqn:Ed; simpl; [done|].
  apply date_add_inr in Ed as ->. intros [= <-] k.
  destruct (dict_get costs _); rewrite !dict_keys_set_elem; tauto.
Qed.

Lemma add_days_keys per_day activity_start days costs costs' :
  foldl (add_day per_day activity_start) (inr costs) days = inr costs' →
  ∀ k, k ∈ dict_keys costs' ↔
       k ∈ dict_keys costs ∨
       ∃ day, day ∈ days ∧ k = strftime_Ymd (activity_start + day).
Proof.
  revert costs. induction days as [|day days IH]; intros costs; cbn [foldl].
  - intros [= <-] k. split; [by left|]. intros [H|(day & []%elem_of_nil & _)]. done.
  - destruct (add_day per_day activity_start (inr costs) day) as [e|c1] eqn:E.
    { by rewrite add_days_inl. }
    intros H k. rewrite (IH c1 H k), (add_day_keys _ _ _ _ _ E k). split.
    + intros [[Hk| ->]|(d & Hd & ->)]; [by left|right..].
      * exists day. split; [apply list_elem_of_here|done].
      * exists d. split; [by apply list_elem_of_further|done].
    + intros [Hk|(d & [->|Hd]%elem_of_cons & ->)].
      * by left; left.
      * by left; right.
      * right. by exists d.
Qed.

Lemma add_activity_cost_keys start costs a costs' :
  add_activity_cost start (inr costs) a = inr costs' →
  ∀ k, k ∈ dict_keys costs' ↔ k ∈ dict_keys costs ∨ runs_on start a k.
Proof.
  unfold add_activity_cost. simpl.
  destruct (cost_per_day a) as [|per_day]; simpl; [done|].
  destruct (date_add start _) as [|activity_start] eqn:Ed; simpl; [done|].
  apply date_add_inr in Ed as ->. intros H k.
  rewrite (add_days_keys _ _ _ _ _ H k). unfold runs_on.
  split; (intros [Hk|(day & Hday & ->)]; [by left|right; exists day]).
  - apply elem_of_seqZ in Hday. split; [lia|done].
  - split; [|done]. apply elem_of_seqZ. lia.
Qed.

Lemma daily_costs_keys start acts costs costs' :
  foldl (add_activity_cost start) (inr costs) acts = inr costs' →
  ∀ k, k ∈ dict_keys costs' ↔
       k ∈ dict_keys costs ∨ ∃ a, a ∈ acts ∧ runs_on start a k.
Proof.
  revert costs. induction acts as [|a acts IH]; intros costs; cbn [foldl].
  - intros [= <-] k. split; [by left|]. intros [H|(a & []%elem_of_nil & _)]. done.
  - destruct (add_activity_cost start (inr costs) a) as [e|c1] eqn:E.
    { by rewrite add_activities_inl. }
    intros H k. rewrite (IH c1 H k), (add_activity_cost_keys _ _ _ _ E k). split.
    + intros [[Hk|Hr]|(b & Hb & Hr)]; [by left|right..].
      * exists a. split; [apply list_elem_of_here|done].
      * exists b. split; [by apply list_elem_of_further|done].
    + intros [Hk|(b & [->|Hb]%elem_of_cons & Hr)].
      * by left; left.
      * by left; right.
      * right. by exists b.
Qed.

(** X17. A series returned by [calculate_s_curve] has a point for exactly
    the days on which some activity runs: a date is in the series if and
    only if it is the day [early_start + day] after the start date for
    some activity and some [day] below its duration. An activity without
    duration, or with a negative one, contributes no day. *)
Theorem calculate_s_curve_days acts start series :
  calculate_s_curve acts start = inr series →
  ∀ k, k ∈ date <$> series ↔
       ∃ a day, a ∈ acts ∧ 0 ≤ day < default 0 (duration a) ∧
                k = strftime_Ymd (start + default 0 (early_start a) + day).
Proof.
  unfold calculate_s_curve.
  destruct (foldl (add_activity_cost start) (inr dict_empty) acts)
    as [e|daily] eqn:E; simpl; [done|].
  intros [= <-] k. rewrite accumulate_dates. simpl.
  assert (Hperm : sorted (dict_keys daily) ≡ₚ dict_keys daily)
    by apply merge_sort_Permutation.
  rewrite Hperm, (daily_costs_keys start acts dict_empty daily E k).
  unfold runs_on. split.
  - intros [[]%elem_of_nil|(a & Ha & day & Hday & ->)]. by exists a, day.
  - intros (a & day & Ha & Hday & ->). right. exists a. split; [done|].
    by exists day.
Qed.

Lemma calculate_s_curve_days_witness :
  ∃ series, calculate_s_curve overlap_example 738886 = inr series ∧
    ∀ k, k ∈ date <$> series ↔
         ∃ a day, a ∈ overlap_example ∧ 0 ≤ day < default 0 (duration a) ∧
                  k = strftime_Ymd (738886 + default 0 (early_start a) + day).
Proof.
  assert (H : ∃ series, calculate_s_curve overlap_example 738886 = inr series)
    by (eexists; vm_compute; reflexivity).
  destruct H as (series & H). exists series.
  exact (conj H (calculate_s_curve_days overlap_example 738886 series H)).
Defined.

End ProductivityDays.

Module BudgetTheorems.
Import ProductivityFacts BudgetCalculator Routes BudgetFacts.



(** X19. For a subtotal and a margin that are not negative
    [apply_profit_margin] returns a profit that is not negative and a total
    of at least the subtotal; with a margin of 0 the profit is 0 and the
    total is the rounded subtotal. *)
Theorem apply_profit_margin_nonneg subtotal margin_percent :
  (0 <= subtotal)%Q → (0 <= margin_percent)%Q →
  let r := apply_profit_margin subtotal margin_percent in
  (0 <= profit_subtotal r)%Q ∧ (0 <= profit_value r)%Q ∧
  (profit_subtotal r <= total r)%Q ∧
  ((margin_percent == 0)%Q →
     (profit_value r == 0)%Q ∧ (total r == profit_subtotal r)%Q).
Proof.
  intros Hs Hm. simpl.
  assert (Hp : (0 <= subtotal * (margin_percent / 100))%Q).
  { apply Qmult_le_0_compat; [done|]. apply Qle_shift_div_l; lra. }
  split; [by apply py_round_nonneg|]. split; [by apply py_round_nonneg|].
  split; [apply py_round_mono; lra|].
  intros E.
  assert (E0 : (subtotal * (margin_percent / 100) == 0)%Q).
  { rewrite E. field. }
  rewrite E0. split; [apply py_round_0|].
  assert (E1 : (subtotal + 0 == subtotal)%Q) by ring.
  by rewrite E1.
Qed.

Lemma apply_profit_margin_nonneg_witness :
  (0 <= 1000)%Q ∧ (0 <= 10)%Q ∧
  let r := apply_profit_margin 1000 10 in
  (0 <= profit_subtotal r)%Q ∧ (0 <= profit_value r)%Q ∧
  (profit_subtotal r <= total r)%Q.
Proof.
  assert (H1 : (0 <= 1000)%Q) by discriminate.
  assert (H2 : (0 <= 10)%Q) by discriminate.
  destruct (apply_profit_margin_nonneg 1000%Q 10%Q H1 H2) as (A & B & C & _).
  exact (conj H1 (conj H2 (conj A (conj B C)))).
Defined.






(** X22. [calculate_composition_cost] raises [ValueError], with the key
    in its message, exactly for the keys that are not in
    [DEFAULT_COMPOSITIONS]. For a key of the table it returns the materials
    of that composition as breakdown; every one of them has a price in
    [MATERIAL_PRICES], so the default price 0 is never used; and the
    rounded total is the sum of the three rounded parts. *)
Theorem calculate_composition_cost_cases composition_key :
  match calculate_composition_cost composition_key with
  | inl e =>
      (composition_key ∉ dict_keys DEFAULT_COMPOSITIONS) ∧
      e = ValueError ("Composição '" +:+ composition_key +:+ "' não encontrada")
  | inr r =>
      composition_key ∈ dict_keys DEFAULT_COMPOSITIONS ∧
      materials <$> dict_get DEFAULT_COMPOSITIONS composition_key
      = Some (breakdown r) ∧
      Forall (λ entry, is_Some (dict_get MATERIAL_PRICES entry.1)) (breakdown r) ∧
      (total_unit_cost r
       == materials_cost r + labor_cost r + equipment_cost r)%Q ∧
      (0 < materials_cost r)%Q ∧ (0 < labor_cost r)%Q ∧
      (0 <= equipment_cost r)%Q
  end.
Proof.
  unfold calculate_composition_cost.
  destruct (dict_get DEFAULT_COMPOSITIONS composition_key) as [comp|] eqn:E.
  - assert (Hkey : composition_key ∈ dict_keys DEFAULT_COMPOSITIONS).
    { destruct (decide (composition_key ∈ dict_keys DEFAULT_COMPOSITIONS))
        as [H|H%dict_get_None]; [done|congruence]. }
    split; [done|]. split; [done|]. simpl.
    unfold DEFAULT_COMPOSITIONS in E. simpl in E.
    repeat case_decide; try discriminate; injection E as <-;
      (split; [repeat constructor; by eexists|by vm_compute]).
  - split; [by apply dict_get_None|done].
Qed.

(** X23. [get_sinapi_composition] never raises: every code of its
    [code_map] leads to a key of [DEFAULT_COMPOSITIONS], so the answer is
    the cost of a composition for the three codes of the map and the
    answer that nothing was found for every other code. *)
Theorem get_sinapi_composition_found code :
  ∃ answer, get_sinapi_composition code = inr answer ∧
    (is_Some answer ↔ code ∈ dict_keys code_map) ∧
    ∀ data, answer = Some data →
      ∃ composition_key, dict_get code_map code = Some composition_key ∧
        calculate_composition_cost composition_key = inr data.
Proof.
  unfold get_sinapi_composition.
  destruct (dict_get code_map code) as [key|] eqn:E.
  - assert (Hcode : code ∈ dict_keys code_map).
    { destruct (decide (code ∈ dict_keys code_map))
        as [H|H%dict_get_None]; [done|congruence]. }
    unfold code_map in E. simpl in E.
    repeat case_decide; try discriminate; injection E as <-;
      (eexists; split; [by vm_compute|]; split; [by split|];
       intros data [= <-]; eexists; split; [done|by vm_compute]).
  - exists None. split; [done|]. split.
    + split; [by intros [? ?]|]. by intros H%dict_get_None.
    + done.
Qed.

Lemma get_sinapi_composition_found_witness :
  "92885" ∈ dict_keys code_map ∧
  ∃ answer, get_sinapi_composition "92885" = inr answer ∧ is_Some answer.
Proof.
  assert (H : "92885" ∈ dict_keys code_map)
    by (apply (bool_decide_unpack _); vm_compute; exact I).
  destruct (get_sinapi_composition_found "92885") as (answer & E & Hiff & _).
  exact (conj H (ex_intro _ answer (conj E (proj2 Hiff H)))).
Defined.

End BudgetTheorems.
